(** * The flashcard session manager of [src/composables/flashcard.ts]

    A shallow embedding of the composable: the module-level singleton state,
    the browser collaborators it talks to ([localStorage], [fetch],
    [JSON.parse] / [JSON.stringify], [Math.random], [Date.now]) and every
    function of the file, followed by the properties of the specification
    and by further properties of the code.

    Conventions.
    - A JavaScript string is the list of its UTF-16 code units.
    - The TypeScript types are taken at their word for the deck and the
      identifiers: a deck is a list of [Flashcard]s, the identifiers a list
      of strings, the history an array.  Of a cached card the two declared
      properties are followed; other properties it may carry, and the order
      of its keys, are not.  Where the source casts or assigns a parsed JSON
      value without a check, a value outside these types ends the run in
      [Stuck IllTyped]; no theorem speaks about such runs.  The entries of
      the history are not typed: the module never reads them, and the array
      read from the store is installed with whatever elements it has.
    - The network answers each URL in one way; [response.blob()] always
      resolves; the store has no quota.
    - An asynchronous function runs from one await to the next without
      other tasks in between.  [LoadDeckfromLocal] is split at its first
      await, where [useFlashcard] leaves it.
    - The draws of [Math.random] and the values of [Date.now] are arguments
      of the functions that use them.
    - The watcher that [useFlashcard] registers stays active: the component
      that made the first call is not unmounted while the deck loads.
    - [console.log] and [console.error] are not modelled. *)

From Stdlib Require Import ZArith NArith List String Ascii Lia Bool.
From Stdlib Require Import DecimalString DecimalFacts DecimalPos.
From stdpp Require Import gmap list.

Set Warnings "-register-all".

Local Open Scope Z_scope.
Local Open Scope nat_scope.

(** ** JavaScript strings *)

Abbreviation jsstring := (list N).

Definition js (s : string) : jsstring :=
  List.map N_of_ascii (list_ascii_of_string s).
Arguments js s%_string.

(** [String(n)] for an integer-valued number. *)
Definition String_ (z : Z) : jsstring :=
  js (NilZero.string_of_int (Z.to_int z)).

Definition jsstring_eqb (a b : jsstring) : bool := bool_decide (a = b).

Fixpoint join_with (sep : jsstring) (parts : list jsstring) : jsstring :=
  match parts with
  | [] => []
  | [p] => p
  | p :: rest => p ++ sep ++ join_with sep rest
  end.

(** ** JSON *)

Module JSON.

(** A JSON number is kept exactly, as [m * 10 ^ e]. *)
Inductive json : Type :=
| JNull
| JBool (b : bool)
| JNumber (m e : Z)
| JString (s : jsstring)
| JArray (elems : list json)
| JObject (members : list (jsstring * json)).

Inductive token : Type :=
| TLBrace | TRBrace | TLBracket | TRBracket | TColon | TComma
| TString (s : jsstring)
| TNumber (m e : Z)
| TTrue | TFalse | TNull.

(** *** Lexer: one code unit at a time *)

Inductive numphase : Type :=
| NSign | NZero | NInt | NDot | NFrac | NE | NESign | NExp.

Record numacc : Type := mkNum {
  neg : bool;       (* a leading minus sign was read *)
  mant : N;         (* digits of the integer and fraction parts *)
  fracLen : N;      (* how many of them are fraction digits *)
  eneg : bool;      (* the exponent carries a minus sign *)
  expo : N          (* digits of the exponent *)
}.

Inductive lexmode : Type :=
| LDefault
| LString (acc : jsstring)
| LEscape (acc : jsstring)
| LUnicode (acc : jsstring) (remaining : nat) (v : N)
| LNumber (ph : numphase) (n : numacc)
| LLiteral (rest : jsstring) (t : token).

Definition is_ws (c : N) : bool :=
  ((c =? 32) || (c =? 9) || (c =? 10) || (c =? 13))%N.

Definition digit_of (c : N) : option N :=
  if ((48 <=? c) && (c <=? 57))%N then Some (c - 48)%N else None.

Definition hex_of (c : N) : option N :=
  if ((48 <=? c) && (c <=? 57))%N then Some (c - 48)%N
  else if ((97 <=? c) && (c <=? 102))%N then Some (c - 87)%N
  else if ((65 <=? c) && (c <=? 70))%N then Some (c - 55)%N
  else None.

Definition num_token (n : numacc) : token :=
  let m := Z.of_N (mant n) in
  let x := Z.of_N (expo n) in
  TNumber (if neg n then (- m)%Z else m)
          ((if eneg n then (- x)%Z else x) - Z.of_N (fracLen n))%Z.

Definition push_digit (d : N) (n : numacc) : numacc :=
  mkNum (neg n) (mant n * 10 + d) (fracLen n) (eneg n) (expo n).
Definition push_frac (d : N) (n : numacc) : numacc :=
  mkNum (neg n) (mant n * 10 + d) (fracLen n + 1) (eneg n) (expo n).
Definition push_exp (d : N) (n : numacc) : numacc :=
  mkNum (neg n) (mant n) (fracLen n) (eneg n) (expo n * 10 + d).
Definition set_eneg (n : numacc) : numacc :=
  mkNum (neg n) (mant n) (fracLen n) true (expo n).

Definition lexstate : Type := lexmode * list token.

Definition default_step (c : N) (toks : list token) : option lexstate :=
  if is_ws c then Some (LDefault, toks)
  else if (c =? 123)%N then Some (LDefault, TLBrace :: toks)
  else if (c =? 125)%N then Some (LDefault, TRBrace :: toks)
  else if (c =? 91)%N then Some (LDefault, TLBracket :: toks)
  else if (c =? 93)%N then Some (LDefault, TRBracket :: toks)
  else if (c =? 58)%N then Some (LDefault, TColon :: toks)
  else if (c =? 44)%N then Some (LDefault, TComma :: toks)
  else if (c =? 34)%N then Some (LString [], toks)
  else if (c =? 45)%N then Some (LNumber NSign (mkNum true 0 0 false 0), toks)
  else if (c =? 48)%N then Some (LNumber NZero (mkNum false 0 0 false 0), toks)
  else if (c =? 116)%N then Some (LLiteral (js "rue") TTrue, toks)
  else if (c =? 102)%N then Some (LLiteral (js "alse") TFalse, toks)
  else if (c =? 110)%N then Some (LLiteral (js "ull") TNull, toks)
  else match digit_of c with
       | Some d => Some (LNumber NInt (mkNum false d 0 false 0), toks)
       | None => None
       end.

Definition is_e (c : N) : bool := ((c =? 101) || (c =? 69))%N.

(** A number ends at the first code unit that cannot continue it; that
    code unit is then read in the default mode. *)
Definition number_step (ph : numphase) (n : numacc) (c : N)
    (toks : list token) : option lexstate :=
  let finish := default_step c (num_token n :: toks) in
  match ph with
  | NSign =>
      match digit_of c with
      | Some 0%N => Some (LNumber NZero n, toks)
      | Some d => Some (LNumber NInt (push_digit d n), toks)
      | None => None
      end
  | NZero =>
      if (c =? 46)%N then Some (LNumber NDot n, toks)
      else if is_e c then Some (LNumber NE n, toks)
      else finish
  | NInt =>
      match digit_of c with
      | Some d => Some (LNumber NInt (push_digit d n), toks)
      | None =>
          if (c =? 46)%N then Some (LNumber NDot n, toks)
          else if is_e c then Some (LNumber NE n, toks)
          else finish
      end
  | NDot =>
      match digit_of c with
      | Some d => Some (LNumber NFrac (push_frac d n), toks)
      | None => None
      end
  | NFrac =>
      match digit_of c with
      | Some d => Some (LNumber NFrac (push_frac d n), toks)
      | None => if is_e c then Some (LNumber NE n, toks) else finish
      end
  | NE =>
      if (c =? 43)%N then Some (LNumber NESign n, toks)
      else if (c =? 45)%N then Some (LNumber NESign (set_eneg n), toks)
      else match digit_of c with
           | Some d => Some (LNumber NExp (push_exp d n), toks)
           | None => None
           end
  | NESign =>
      match digit_of c with
      | Some d => Some (LNumber NExp (push_exp d n), toks)
      | None => None
      end
  | NExp =>
      match digit_of c with
      | Some d => Some (LNumber NExp (push_exp d n), toks)
      | None => finish
      end
  end.

Definition escape_step (acc : jsstring) (c : N) : option lexmode :=
  if (c =? 34)%N then Some (LString (34%N :: acc))
  else if (c =? 92)%N then Some (LString (92%N :: acc))
  else if (c =? 47)%N then Some (LString (47%N :: acc))
  else if (c =? 98)%N then Some (LString (8%N :: acc))
  else if (c =? 102)%N then Some (LString (12%N :: acc))
  else if (c =? 110)%N then Some (LString (10%N :: acc))
  else if (c =? 114)%N then Some (LString (13%N :: acc))
  else if (c =? 116)%N then Some (LString (9%N :: acc))
  else if (c =? 117)%N then Some (LUnicode acc 4 0%N)
  else None.

Definition lex_step (s : lexstate) (c : N) : option lexstate :=
  let '(mode, toks) := s in
  match mode with
  | LDefault => default_step c toks
  | LString acc =>
      if (c =? 34)%N then Some (LDefault, TString (rev acc) :: toks)
      else if (c =? 92)%N then Some (LEscape acc, toks)
      else if (c <? 32)%N then None
      else Some (LString (c :: acc), toks)
  | LEscape acc =>
      match escape_step acc c with
      | Some m => Some (m, toks)
      | None => None
      end
  | LUnicode acc remaining v =>
      match hex_of c with
      | Some h =>
          let v' := (v * 16 + h)%N in
          match remaining with
          | 0 | 1 => Some (LString (v' :: acc), toks)
          | S k => Some (LUnicode acc k v', toks)
          end
      | None => None
      end
  | LNumber ph n => number_step ph n c toks
  | LLiteral rest t =>
      match rest with
      | [] => None
      | [x] => if (c =? x)%N then Some (LDefault, t :: toks) else None
      | x :: rest' => if (c =? x)%N then Some (LLiteral rest' t, toks) else None
      end
  end.

Fixpoint lex_from (s : lexstate) (input : jsstring) : option lexstate :=
  match input with
  | [] => Some s
  | c :: rest =>
      match lex_step s c with
      | Some s' => lex_from s' rest
      | None => None
      end
  end.

Definition lex_end (s : lexstate) : option (list token) :=
  let '(mode, toks) := s in
  match mode with
  | LDefault => Some (rev toks)
  | LNumber (NZero | NInt | NFrac | NExp) n => Some (rev (num_token n :: toks))
  | _ => None
  end.

Definition lex (input : jsstring) : option (list token) :=
  match lex_from (LDefault, []) input with
  | Some s => lex_end s
  | None => None
  end.

(** *** Parser: a stack automaton over the tokens *)

Inductive frame : Type :=
| FArray (elems : list json)
| FObject (members : list (jsstring * json)) (key : option jsstring).

Inductive expect : Type :=
| EValue            (* a value must follow *)
| EValueOrClose     (* just after an opening bracket *)
| EKeyOrClose       (* just after an opening brace *)
| EKey              (* after a comma inside an object *)
| EColon (k : jsstring)
| EAfter            (* after a value inside a container *)
| EDone (v : json). (* the top-level value is complete *)

Definition pstate : Type := list frame * expect.

Definition deliver (v : json) (stack : list frame) : option pstate :=
  match stack with
  | [] => Some ([], EDone v)
  | FArray acc :: s => Some (FArray (v :: acc) :: s, EAfter)
  | FObject acc (Some k) :: s => Some (FObject ((k, v) :: acc) None :: s, EAfter)
  | FObject _ None :: _ => None
  end.

Definition value_step (allow_close : bool) (stack : list frame) (t : token)
    : option pstate :=
  match t with
  | TString s => deliver (JString s) stack
  | TNumber m e => deliver (JNumber m e) stack
  | TTrue => deliver (JBool true) stack
  | TFalse => deliver (JBool false) stack
  | TNull => deliver JNull stack
  | TLBracket => Some (FArray [] :: stack, EValueOrClose)
  | TLBrace => Some (FObject [] None :: stack, EKeyOrClose)
  | TRBracket =>
      match allow_close, stack with
      | true, FArray acc :: s => deliver (JArray (rev acc)) s
      | _, _ => None
      end
  | _ => None
  end.

Definition close_object (stack : list frame) : option pstate :=
  match stack with
  | FObject acc None :: s => deliver (JObject (rev acc)) s
  | _ => None
  end.

Definition parse_step (p : pstate) (t : token) : option pstate :=
  let '(stack, ex) := p in
  match ex with
  | EValue => value_step false stack t
  | EValueOrClose => value_step true stack t
  | EKeyOrClose =>
      match t with
      | TString k => Some (stack, EColon k)
      | TRBrace => close_object stack
      | _ => None
      end
  | EKey =>
      match t with
      | TString k => Some (stack, EColon k)
      | _ => None
      end
  | EColon k =>
      match t, stack with
      | TColon, FObject acc None :: s => Some (FObject acc (Some k) :: s, EValue)
      | _, _ => None
      end
  | EAfter =>
      match t, stack with
      | TComma, FArray _ :: _ => Some (stack, EValue)
      | TComma, FObject _ None :: _ => Some (stack, EKey)
      | TRBracket, FArray acc :: s => deliver (JArray (rev acc)) s
      | TRBrace, _ => close_object stack
      | _, _ => None
      end
  | EDone _ => None
  end.

Fixpoint parse_from (p : pstate) (toks : list token) : option pstate :=
  match toks with
  | [] => Some p
  | t :: rest =>
      match parse_step p t with
      | Some p' => parse_from p' rest
      | None => None
      end
  end.

(** [JSON.parse]: [None] stands for the [SyntaxError] it throws. *)
Definition parse (text : jsstring) : option json :=
  match lex text with
  | Some toks =>
      match parse_from ([], EValue) toks with
      | Some ([], EDone v) => Some v
      | _ => None
      end
  | None => None
  end.

(** *** Reading a parsed value *)

(** A double rounds to zero when it is at most half the least subnormal. *)
Definition rounds_to_zero (m e : Z) : bool :=
  ((m =? 0) || ((e <? 0) && (Z.abs m * 2 ^ 1075 <=? 10 ^ (- e))))%Z.

(** JavaScript truthiness ([if (v)]). *)
Definition truthy (v : json) : bool :=
  match v with
  | JNull => false
  | JBool b => b
  | JNumber m e => negb (rounds_to_zero m e)
  | JString s => negb (bool_decide (s = []))
  | JArray _ | JObject _ => true
  end.

(** Property lookup on a parsed object: the last duplicate wins. *)
Fixpoint get (k : jsstring) (members : list (jsstring * json)) : option json :=
  match members with
  | [] => None
  | (k', v) :: rest =>
      match get k rest with
      | Some w => Some w
      | None => if jsstring_eqb k k' then Some v else None
      end
  end.

Definition as_string (v : json) : option jsstring :=
  match v with JString s => Some s | _ => None end.

(** An integer that a double holds exactly. *)
Definition as_integer (v : json) : option Z :=
  match v with
  | JNumber m e =>
      let z := if (0 <=? e)%Z then Some (m * 10 ^ e)%Z
               else if (m mod 10 ^ (- e) =? 0)%Z then Some (m / 10 ^ (- e))%Z
               else None in
      match z with
      | Some z => if (Z.abs z <? 2 ^ 53)%Z then Some z else None
      | None => None
      end
  | _ => None
  end.

(** *** [JSON.stringify] of strings *)

Definition hex_digit (n : N) : N :=
  if (n <? 10)%N then (48 + n)%N else (87 + n)%N.

Definition unicode_escape (c : N) : jsstring :=
  [92; 117; hex_digit (c / 4096 mod 16); hex_digit (c / 256 mod 16);
   hex_digit (c / 16 mod 16); hex_digit (c mod 16)]%N.

Definition is_high_surrogate (c : N) : bool := ((55296 <=? c) && (c <=? 56319))%N.
Definition is_low_surrogate (c : N) : bool := ((56320 <=? c) && (c <=? 57343))%N.

Definition escape_unit (c : N) : jsstring :=
  if (c =? 8)%N then js "\b"
  else if (c =? 9)%N then js "\t"
  else if (c =? 10)%N then js "\n"
  else if (c =? 12)%N then js "\f"
  else if (c =? 13)%N then js "\r"
  else if (c =? 34)%N then [92; 34]%N
  else if (c =? 92)%N then [92; 92]%N
  else if (c <? 32)%N then unicode_escape c
  else if is_low_surrogate c then unicode_escape c
  else [c].

Fixpoint quote_units (s : jsstring) : jsstring :=
  match s with
  | [] => []
  | c :: rest =>
      if is_high_surrogate c then
        match rest with
        | d :: rest' =>
            if is_low_surrogate d then c :: d :: quote_units rest'
            else unicode_escape c ++ quote_units rest
        | [] => unicode_escape c
        end
      else escape_unit c ++ quote_units rest
  end.

Definition quote (s : jsstring) : jsstring :=
  [34%N] ++ quote_units s ++ [34%N].

(** *** [JSON.stringify] of a parsed value *)

(** The text of a number: the decimal digits of an integer that a double
    holds exactly.  The text of any other number is outside the model. *)
Definition number_text (m e : Z) : option jsstring :=
  match as_integer (JNumber m e) with
  | Some z => Some (String_ z)
  | None => None
  end.

(** The own properties of a parsed object in the order of their
    enumeration.  A key that occurs again in the text keeps its place and
    takes the later value; the keys that are array indices (canonical
    decimal numerals up to [2^32 - 2]) come first, in ascending order. *)
Fixpoint put {V} (k : jsstring) (v : V) (l : list (jsstring * V))
    : list (jsstring * V) :=
  match l with
  | [] => [(k, v)]
  | (k', v') :: rest =>
      if jsstring_eqb k k' then (k', v) :: rest else (k', v') :: put k v rest
  end.

Fixpoint digits_value (acc : N) (k : jsstring) : option N :=
  match k with
  | [] => Some acc
  | c :: rest =>
      match digit_of c with
      | Some d => digits_value (10 * acc + d) rest
      | None => None
      end
  end.

Definition index_of_key (k : jsstring) : option N :=
  match k with
  | [] => None
  | c :: rest =>
      if (c =? 48)%N then match rest with [] => Some 0%N | _ => None end
      else match digits_value 0 k with
           | Some n => if (n <=? 4294967294)%N then Some n else None
           | None => None
           end
  end.

Fixpoint insert_sorted {V} (n : N) (p : jsstring * V)
    (l : list (N * (jsstring * V))) : list (N * (jsstring * V)) :=
  match l with
  | [] => [(n, p)]
  | (n', p') :: rest =>
      if (n <? n')%N then (n, p) :: l else (n', p') :: insert_sorted n p rest
  end.

Definition own_properties {V} (members : list (jsstring * V))
    : list (jsstring * V) :=
  let unique := fold_left (fun acc kv => put (fst kv) (snd kv) acc) members [] in
  let indexed :=
    fold_left (fun acc kv =>
                 match index_of_key (fst kv) with
                 | Some n => insert_sorted n kv acc
                 | None => acc
                 end) unique [] in
  List.map snd indexed ++
  List.filter (fun kv => match index_of_key (fst kv) with
                         | Some _ => false
                         | None => true
                         end) unique.

Fixpoint all_some {A} (l : list (option A)) : option (list A) :=
  match l with
  | [] => Some []
  | Some a :: rest =>
      match all_some rest with
      | Some rest' => Some (a :: rest')
      | None => None
      end
  | None :: _ => None
  end.

(** [None]: the value holds a number whose text is outside the model. *)
Fixpoint stringify (v : json) : option jsstring :=
  match v with
  | JNull => Some (js "null")
  | JBool b => Some (if b then js "true" else js "false")
  | JNumber m e => number_text m e
  | JString s => Some (quote s)
  | JArray elems =>
      match all_some (List.map stringify elems) with
      | Some texts => Some (js "[" ++ join_with (js ",") texts ++ js "]")
      | None => None
      end
  | JObject members =>
      let texts :=
        List.map (fun kv => match kv with (k, x) => (k, stringify x) end) members in
      match all_some
              (List.map (fun kt => match kt with
                                   | (k, Some t) => Some (quote k ++ js ":" ++ t)
                                   | (_, None) => None
                                   end)
                 (own_properties texts)) with
      | Some texts => Some (js "{" ++ join_with (js ",") texts ++ js "}")
      | None => None
      end
  end.

End JSON.

(** ** Data model *)

Record Flashcard : Type := mkFlashcard {
  imageSrc : jsstring;
  name : jsstring
}.

Module HistoryRecord.
Record t : Type := mk {
  flashcard : Flashcard;
  isCorrect : bool;
  timestamp : Z
}.
End HistoryRecord.

#[global] Instance Flashcard_eq_dec : EqDecision Flashcard.
Proof. solve_decision. Defined.

(** The card [{ imageSrc: '', name: '' }] of lines 14 and 181. *)
Definition placeholder : Flashcard := mkFlashcard [] [].

(** *** Serialisation of decks and histories

    The text that [JSON.stringify] gives for a deck, and for a history whose
    entries are records ([stringify_encoded_history] below). *)

Definition stringify_Flashcard (c : Flashcard) : jsstring :=
  js "{" ++ JSON.quote (js "imageSrc") ++ js ":" ++ JSON.quote (imageSrc c) ++
  js "," ++ JSON.quote (js "name") ++ js ":" ++ JSON.quote (name c) ++ js "}".

Definition stringify_deck (decks : list Flashcard) : jsstring :=
  js "[" ++ join_with (js ",") (List.map stringify_Flashcard decks) ++ js "]".

Definition stringify_HistoryRecord (r : HistoryRecord.t) : jsstring :=
  js "{" ++ JSON.quote (js "flashcard") ++ js ":" ++
    stringify_Flashcard (HistoryRecord.flashcard r) ++
  js "," ++ JSON.quote (js "isCorrect") ++ js ":" ++
    (if HistoryRecord.isCorrect r then js "true" else js "false") ++
  js "," ++ JSON.quote (js "timestamp") ++ js ":" ++
    String_ (HistoryRecord.timestamp r) ++ js "}".

Definition stringify_history (records : list HistoryRecord.t) : jsstring :=
  js "[" ++ join_with (js ",") (List.map stringify_HistoryRecord records) ++ js "]".

(** What the cast [as Flashcard[]] assumes: the parsed value is an array of
    objects that have a string under [imageSrc] and a string under [name]
    (a key that occurs again takes the later value, as [JSON.parse] has it).
    [None] marks a value outside the declared type. *)
Definition decode_Flashcard (v : JSON.json) : option Flashcard :=
  match v with
  | JSON.JObject ms =>
      match JSON.get (js "imageSrc") ms, JSON.get (js "name") ms with
      | Some (JSON.JString i), Some (JSON.JString n) => Some (mkFlashcard i n)
      | _, _ => None
      end
  | _ => None
  end.

Definition decode_deck (v : JSON.json) : option (list Flashcard) :=
  match v with
  | JSON.JArray elems => mapM decode_Flashcard elems
  | _ => None
  end.

(** A card and a history record as values: the object literals of lines 28
    and 188-192.  The tokens of their texts. *)
Definition encode_Flashcard (c : Flashcard) : JSON.json :=
  JSON.JObject [(js "imageSrc", JSON.JString (imageSrc c));
                (js "name", JSON.JString (name c))].

Definition encode_HistoryRecord (r : HistoryRecord.t) : JSON.json :=
  JSON.JObject [(js "flashcard", encode_Flashcard (HistoryRecord.flashcard r));
                (js "isCorrect", JSON.JBool (HistoryRecord.isCorrect r));
                (js "timestamp", JSON.JNumber (HistoryRecord.timestamp r) 0)].

Definition tokens_Flashcard (c : Flashcard) : list JSON.token :=
  [JSON.TLBrace; JSON.TString (js "imageSrc"); JSON.TColon;
   JSON.TString (imageSrc c); JSON.TComma;
   JSON.TString (js "name"); JSON.TColon; JSON.TString (name c); JSON.TRBrace].

Definition tokens_HistoryRecord (r : HistoryRecord.t) : list JSON.token :=
  [JSON.TLBrace; JSON.TString (js "flashcard"); JSON.TColon] ++
  tokens_Flashcard (HistoryRecord.flashcard r) ++
  [JSON.TComma; JSON.TString (js "isCorrect"); JSON.TColon;
   if HistoryRecord.isCorrect r then JSON.TTrue else JSON.TFalse;
   JSON.TComma; JSON.TString (js "timestamp"); JSON.TColon;
   JSON.TNumber (HistoryRecord.timestamp r) 0; JSON.TRBrace].

Fixpoint join_tokens (parts : list (list JSON.token)) : list JSON.token :=
  match parts with
  | [] => []
  | [p] => p
  | p :: rest => p ++ JSON.TComma :: join_tokens rest
  end.

(** An integer that a JavaScript number holds exactly, as [Date.now()]
    returns. *)
Definition safe_integer (z : Z) : Prop := (Z.abs z < 2 ^ 53)%Z.

(** ** The state of the module and of the browser *)

(** Every object literal and every object made by [JSON.parse] is a fresh
    object; a history entry is kept with its identity.  An entry is a value:
    the record that [AddHistoryRecord] pushed, or whatever element the stored
    array held. *)
Abbreviation oid := nat.

Record State : Type := mkState {
  (* the module-level variables, lines 12-18 *)
  currentDeck : list Flashcard;
  loadFinished : bool;
  flashcard : Flashcard;
  showAnswer : bool;
  historyRecords : list (oid * JSON.json);
  cardIndex : nat;
  isInitialized : bool;
  (* the browser *)
  localStorage : gmap jsstring jsstring;
  requests : list jsstring;   (* every URL passed to fetch, oldest first *)
  nextOid : oid;              (* allocation counter for object identities *)
  (* asynchronous bookkeeping *)
  loadPending : bool;         (* LoadDeckfromLocal is suspended at its first await *)
  watching : bool;            (* the watcher on loadFinished is registered *)
  jobQueued : bool            (* its callback is queued for the next flush *)
}.

Definition set_currentDeck (v : list Flashcard) (s : State) : State :=
  mkState v (loadFinished s) (flashcard s) (showAnswer s) (historyRecords s)
    (cardIndex s) (isInitialized s) (localStorage s) (requests s) (nextOid s)
    (loadPending s) (watching s) (jobQueued s).
Definition set_loadFinished (v : bool) (s : State) : State :=
  mkState (currentDeck s) v (flashcard s) (showAnswer s) (historyRecords s)
    (cardIndex s) (isInitialized s) (localStorage s) (requests s) (nextOid s)
    (loadPending s) (watching s) (jobQueued s).
Definition set_flashcard (v : Flashcard) (s : State) : State :=
  mkState (currentDeck s) (loadFinished s) v (showAnswer s) (historyRecords s)
    (cardIndex s) (isInitialized s) (localStorage s) (requests s) (nextOid s)
    (loadPending s) (watching s) (jobQueued s).
Definition set_showAnswer (v : bool) (s : State) : State :=
  mkState (currentDeck s) (loadFinished s) (flashcard s) v (historyRecords s)
    (cardIndex s) (isInitialized s) (localStorage s) (requests s) (nextOid s)
    (loadPending s) (watching s) (jobQueued s).
Definition set_historyRecords (v : list (oid * JSON.json)) (s : State) : State :=
  mkState (currentDeck s) (loadFinished s) (flashcard s) (showAnswer s) v
    (cardIndex s) (isInitialized s) (localStorage s) (requests s) (nextOid s)
    (loadPending s) (watching s) (jobQueued s).
Definition set_cardIndex (v : nat) (s : State) : State :=
  mkState (currentDeck s) (loadFinished s) (flashcard s) (showAnswer s)
    (historyRecords s) v (isInitialized s) (localStorage s) (requests s)
    (nextOid s) (loadPending s) (watching s) (jobQueued s).
Definition set_isInitialized (v : bool) (s : State) : State :=
  mkState (currentDeck s) (loadFinished s) (flashcard s) (showAnswer s)
    (historyRecords s) (cardIndex s) v (localStorage s) (requests s)
    (nextOid s) (loadPending s) (watching s) (jobQueued s).
Definition set_localStorage (v : gmap jsstring jsstring) (s : State) : State :=
  mkState (currentDeck s) (loadFinished s) (flashcard s) (showAnswer s)
    (historyRecords s) (cardIndex s) (isInitialized s) v (requests s)
    (nextOid s) (loadPending s) (watching s) (jobQueued s).
Definition set_requests (v : list jsstring) (s : State) : State :=
  mkState (currentDeck s) (loadFinished s) (flashcard s) (showAnswer s)
    (historyRecords s) (cardIndex s) (isInitialized s) (localStorage s) v
    (nextOid s) (loadPending s) (watching s) (jobQueued s).
Definition set_nextOid (v : oid) (s : State) : State :=
  mkState (currentDeck s) (loadFinished s) (flashcard s) (showAnswer s)
    (historyRecords s) (cardIndex s) (isInitialized s) (localStorage s)
    (requests s) v (loadPending s) (watching s) (jobQueued s).
Definition set_loadPending (v : bool) (s : State) : State :=
  mkState (currentDeck s) (loadFinished s) (flashcard s) (showAnswer s)
    (historyRecords s) (cardIndex s) (isInitialized s) (localStorage s)
    (requests s) (nextOid s) v (watching s) (jobQueued s).
Definition set_watching (v : bool) (s : State) : State :=
  mkState (currentDeck s) (loadFinished s) (flashcard s) (showAnswer s)
    (historyRecords s) (cardIndex s) (isInitialized s) (localStorage s)
    (requests s) (nextOid s) (loadPending s) v (jobQueued s).
Definition set_jobQueued (v : bool) (s : State) : State :=
  mkState (currentDeck s) (loadFinished s) (flashcard s) (showAnswer s)
    (historyRecords s) (cardIndex s) (isInitialized s) (localStorage s)
    (requests s) (nextOid s) (loadPending s) (watching s) v.

(** The module as it stands when the page has just loaded (lines 12-18),
    over a given content of the persistence store. *)
Definition initialState (storage : gmap jsstring jsstring) : State :=
  mkState [] false placeholder false [] 0 false storage [] 0 false false false.

Definition deckCacheKey : jsstring := js "flashcardDeck".
Definition historyKey : jsstring := js "flashcardHistory".

(** ** Computations: state, exceptions, and runs outside the model *)

Inductive Error : Type :=
| JsError (message : jsstring)   (* new Error(message) *)
| SyntaxError                    (* JSON.parse, response.json() *)
| TypeError                      (* a property read on null *)
| FetchRejected.                 (* the promise of fetch rejects *)

Inductive StuckReason : Type :=
| IllTyped     (* a value outside its declared TypeScript type *)
| Unprintable  (* the text of a number that is not an exact integer *)
| OutOfFuel.

Inductive Completion (A : Type) : Type :=
| Normal (a : A) (st : State)
| Throw (e : Error) (st : State)
| Stuck (why : StuckReason).
Arguments Normal {A} a st.
Arguments Throw {A} e st.
Arguments Stuck {A} why.

Definition M (A : Type) : Type := State -> Completion A.

Definition ret {A} (a : A) : M A := fun st => Normal a st.

Definition bind {A B} (m : M A) (k : A -> M B) : M B :=
  fun st =>
    match m st with
    | Normal a st' => k a st'
    | Throw e st' => Throw e st'
    | Stuck why => Stuck why
    end.

Definition throw {A} (e : Error) : M A := fun st => Throw e st.
Definition stuck {A} (why : StuckReason) : M A := fun _ => Stuck why.

(** [try { body } catch (error) { handler }] *)
Definition try_catch {A} (body : M A) (handler : Error -> M A) : M A :=
  fun st =>
    match body st with
    | Throw e st' => handler e st'
    | other => other
    end.

Definition modify (f : State -> State) : M unit := fun st => Normal tt (f st).
Definition gets {A} (f : State -> A) : M A := fun st => Normal (f st) st.

Declare Scope js_scope.
Delimit Scope js_scope with js.
Notation "x <- m ;; k" := (bind m (fun x => k))
  (at level 100, m at next level, right associativity) : js_scope.
Notation "m ;; k" := (bind m (fun _ => k))
  (at level 100, right associativity) : js_scope.
Local Open Scope js_scope.

(** [Math.floor(Math.random() * n)].  The draw is an arbitrary natural
    number [r]; the index is [r mod n], and [0] when [n] is [0] (the product
    is then [0]).  Every index below [n] arises from some draw. *)
Definition random_index (r n : nat) : nat :=
  match n with
  | 0 => 0
  | S _ => r mod n
  end.

(** [array.sort(() => Math.random() - 0.5)]: with such a comparator the order
    is whatever the engine's algorithm makes of the draws.  Here each element
    is inserted at a drawn position among those already placed, which reaches
    every permutation. *)
Definition insert_at {A} (i : nat) (x : A) (l : list A) : list A :=
  take i l ++ x :: drop i l.

Fixpoint sort_random {A} (draws : list nat) (l acc : list A) : list A :=
  match l with
  | [] => acc
  | x :: l' =>
      let r := hd 0 draws in
      sort_random (tl draws) l' (insert_at (r mod S (length acc)) x acc)
  end.

(** ** The network *)

(** What the composable reads of a response: [response.ok],
    [response.statusText], the [type] of [await response.blob()], and the
    text that [response.json()] parses. *)
Record Response : Type := mkResponse {
  ok : bool;
  statusText : jsstring;
  blob_type : jsstring;
  body : jsstring
}.

Section Composable.

(** [import.meta.env.BASE_URL], and the answer of the network to each URL
    ([None]: the promise of [fetch] rejects). *)
Variable BASE_URL : jsstring.
Variable network : jsstring -> option Response.

Definition request (src : jsstring) : M unit :=
  modify (fun st => set_requests (requests st ++ [src]) st).

Definition response_of (src : jsstring) : M Response :=
  match network src with
  | Some response => ret response
  | None => throw FetchRejected
  end.

Definition fetch (src : jsstring) : M Response :=
  request src ;; response_of src.

(** ** Lines 22-33 *)

Definition LoadImageBySrc (src itemName : jsstring) : M unit :=
  response <- fetch src ;;
  if negb (ok response) then
    throw (JsError (js "Failed to load image: " ++ src ++ js ": " ++
                    statusText response))
  else
    if jsstring_eqb (blob_type response) (js "image/jpeg")
       || jsstring_eqb (blob_type response) (js "image/png")
    then modify (fun st =>
           set_currentDeck (currentDeck st ++ [mkFlashcard src itemName]) st)
    else throw (JsError (js "Not a jpeg or png image")).

(** ** Lines 34-52 *)

Definition saveDeckCache (decks : list Flashcard) : M unit :=
  modify (fun st =>
    set_localStorage (<[deckCacheKey := stringify_deck decks]> (localStorage st)) st).

(** The result is the parsed value as it is, before the cast; [JNull] is
    the [null] of lines 48 and 51. *)
Definition LoadDeckfromCache : M JSON.json :=
  cache <- gets (fun st => localStorage st !! deckCacheKey) ;;
  match cache with
  | Some ((_ :: _) as cache) =>
      match JSON.parse cache with
      | Some parsedCache => ret parsedCache
      | None =>
          modify (fun st => set_localStorage (delete deckCacheKey (localStorage st)) st) ;;
          ret JSON.JNull
      end
  | _ => ret JSON.JNull
  end.

(** ** Lines 54-129 *)

Definition photoFolderPath : jsstring := BASE_URL ++ js "photo/".
Definition configUrl : jsstring := photoFolderPath ++ js "deck-config.json".

(** [config.itemNames] after the check of line 64. *)
Definition config_itemNames (config : JSON.json) : M (list jsstring) :=
  let failed := JsError (js "deck-config.json failed to parse itemNames") in
  match config with
  | JSON.JNull => throw TypeError
  | JSON.JObject members =>
      match JSON.get (js "itemNames") members with
      | Some (JSON.JArray elems) =>
          match mapM JSON.as_string elems with
          | Some names => ret names
          | None => stuck IllTyped
          end
      | _ => throw failed
      end
  | _ => throw failed
  end.

Definition Response_json (response : Response) : M JSON.json :=
  match JSON.parse (body response) with
  | Some v => ret v
  | None => throw SyntaxError
  end.

(** Lines 59-71, from the point where the request of line 60 is answered. *)
Definition read_itemNames : M (list jsstring) :=
  try_catch
    (configResponse <- response_of configUrl ;;
     config <- Response_json configResponse ;;
     config_itemNames config)
    (fun _ => ret []).

(** [try { await LoadImageBySrc(src, itemName); count++ } catch { .. }]:
    [true] when the image was loaded. *)
Definition try_LoadImageBySrc (src itemName : jsstring) : M bool :=
  try_catch (LoadImageBySrc src itemName ;; ret true) (fun _ => ret false).

Definition indexedSrc (itemName : jsstring) (imageIndex : nat) (ext : jsstring)
    : jsstring :=
  photoFolderPath ++ itemName ++ String_ (Z.of_nat imageIndex) ++ ext.

(** The local variables of the loop of lines 100-122 when it is left. *)
Record ProbeExit : Type := mkProbeExit {
  exitIndex : nat;
  exitPngFlag : bool;
  exitJpgFlag : bool;
  exitCount : nat
}.

(** Lines 103-122. *)
Fixpoint probe (fuel : nat) (itemName : jsstring) (imageIndex : nat)
    (pngFlag jpgFlag : bool) (count : nat) : M ProbeExit :=
  match fuel with
  | 0 => stuck OutOfFuel
  | S fuel' =>
      if imageIndex <? 10 then
        png <- try_LoadImageBySrc (indexedSrc itemName imageIndex (js ".png")) itemName ;;
        let count := if png then S count else count in
        let pngFlag := if png then pngFlag else true in
        jpg <- try_LoadImageBySrc (indexedSrc itemName imageIndex (js ".jpg")) itemName ;;
        let count := if jpg then S count else count in
        let jpgFlag := if jpg then jpgFlag else true in
        if pngFlag && jpgFlag
        then ret (mkProbeExit imageIndex pngFlag jpgFlag count)
        else probe fuel' itemName (S imageIndex) pngFlag jpgFlag count
      else ret (mkProbeExit imageIndex pngFlag jpgFlag count)
  end.

(** Lines 99-122: the indexed probe of one identifier. *)
Definition probe_indexed (itemName : jsstring) (count : nat) : M ProbeExit :=
  probe 10 itemName 1 false false count.

(** Lines 142-149. *)
Definition initFlashcard (r : nat) : M unit :=
  deck <- gets currentDeck ;;
  if 0 <? length deck then
    match deck !! random_index r (length deck) with
    | Some card => modify (set_flashcard card)
    | None => stuck IllTyped
    end
  else ret tt.

(** An assignment to [loadFinished.value]: a registered watcher is queued
    when the value changes. *)
Definition assign_loadFinished (v : bool) : M unit :=
  modify (fun st =>
    set_jobQueued (jobQueued st || (watching st && negb (eqb (loadFinished st) v)))
      (set_loadFinished v st)).

(** The callback of lines 164-168, run by the scheduler when the task
    next waits. *)
Definition flushJobs (r : nat) : M unit :=
  queued <- gets jobQueued ;;
  if queued then
    modify (set_jobQueued false) ;;
    newValue <- gets loadFinished ;;
    if newValue then initFlashcard r else ret tt
  else ret tt.

(** Lines 77-125: the body of the loop over the identifiers.  The check of
    line 77 never fires on an array.  The queued callback runs at the next
    await, before which nothing else touches the state. *)
Definition load_item (r : nat) (itemName : jsstring) : M unit :=
  png <- try_LoadImageBySrc (photoFolderPath ++ itemName ++ js ".png") itemName ;;
  let count := if png then 1 else 0 in
  jpg <- try_LoadImageBySrc (photoFolderPath ++ itemName ++ js ".jpg") itemName ;;
  let count := if jpg then S count else count in
  exit <- probe_indexed itemName count ;;
  (if 0 <? exitCount exit then assign_loadFinished true else ret tt) ;;
  flushJobs r.

Fixpoint load_items (r : nat) (itemNames : list jsstring) : M unit :=
  match itemNames with
  | [] => ret tt
  | itemName :: rest => load_item r itemName ;; load_items r rest
  end.

(** The call up to its first await: the config is requested. *)
Definition LoadDeckfromLocal_start : M unit :=
  request configUrl ;; modify (set_loadPending true).

(** The rest of the call. *)
Definition LoadDeckfromLocal_resume (draws : list nat) (r : nat) : M unit :=
  modify (set_loadPending false) ;;
  itemNames <- read_itemNames ;;
  load_items r (sort_random draws itemNames []) ;;
  deck <- gets currentDeck ;;
  saveDeckCache deck.

Definition LoadDeckfromLocal (draws : list nat) (r : nat) : M unit :=
  LoadDeckfromLocal_start ;; LoadDeckfromLocal_resume draws r.

(** ** Lines 131-140 *)

Definition allocate {A} (first : oid) (objects : list A) : list (oid * A) :=
  zip (seq first (length objects)) objects.

(** Line 134 assigns the parsed array as it is: its elements become the
    entries of the history, whatever they are.  A parsed value that is not
    an array is outside the declared type [HistoryRecord[]]. *)
Definition LoadHistoryfromLocal : M unit :=
  historyString <- gets (fun st => localStorage st !! historyKey) ;;
  match historyString with
  | Some ((_ :: _) as historyString) =>
      match JSON.parse historyString with
      | None => throw SyntaxError
      | Some (JSON.JArray elems) =>
          modify (fun st =>
            set_nextOid (nextOid st + length elems)
              (set_historyRecords (allocate (nextOid st) elems) st))
      | Some _ => stuck IllTyped
      end
  | _ => ret tt
  end.

Definition SaveHistorytoLocal : M unit :=
  records <- gets historyRecords ;;
  match JSON.stringify (JSON.JArray (List.map snd records)) with
  | Some text =>
      modify (fun st =>
        set_localStorage (<[historyKey := text]> (localStorage st)) st)
  | None => stuck Unprintable
  end.

(** ** Lines 151-174: the initialisation block of [useFlashcard] *)

(** [watch(loadFinished, callback, { immediate: true })] *)
Definition watch_loadFinished (r : nat) : M unit :=
  modify (set_watching true) ;;
  newValue <- gets loadFinished ;;
  if newValue then initFlashcard r else ret tt.

Definition useFlashcard (r : nat) : M unit :=
  initialized <- gets isInitialized ;;
  if initialized then ret tt
  else
    LoadHistoryfromLocal ;;
    cachedDeck <- LoadDeckfromCache ;;
    (if JSON.truthy cachedDeck then
       match decode_deck cachedDeck with
       | Some deck =>
           modify (set_currentDeck deck) ;;
           assign_loadFinished true ;;
           initFlashcard r
       | None => stuck IllTyped
       end
     else
       LoadDeckfromLocal_start ;;
       watch_loadFinished r) ;;
    modify (set_isInitialized true).

(** ** Lines 177-206: the actions *)

Definition NextCard (r : nat) : M unit :=
  deck <- gets currentDeck ;;
  let index := random_index r (length deck) in
  modify (set_cardIndex index) ;;
  modify (set_flashcard (default placeholder (deck !! index))) ;;
  modify (set_showAnswer false).

(** [now] is the value of [Date.now()].  The guard of line 187 never fires:
    an object is truthy. *)
Definition AddHistoryRecord (isCorrect : bool) (now : Z) : M unit :=
  card <- gets flashcard ;;
  let record := encode_HistoryRecord (HistoryRecord.mk card isCorrect now) in
  modify (fun st =>
    set_nextOid (S (nextOid st))
      (set_historyRecords (historyRecords st ++ [(nextOid st, record)]) st)) ;;
  records <- gets historyRecords ;;
  if 100 <? length records
  then modify (set_historyRecords (tail records))
  else ret tt.

Definition handleAnswer (isCorrect : bool) (now : Z) (r : nat) : M unit :=
  AddHistoryRecord isCorrect now ;;
  NextCard r.

Definition HandleCorrect : Z -> nat -> M unit := handleAnswer true.
Definition HandleIncorrect : Z -> nat -> M unit := handleAnswer false.

(** ** Notions used to state the properties *)

(** Whether [LoadImageBySrc src] succeeds: the fetch resolves, the response
    is [ok], and the blob type is one of the two accepted ones. *)
Definition accepted (src : jsstring) : bool :=
  match network src with
  | Some response =>
      ok response &&
      (jsstring_eqb (blob_type response) (js "image/jpeg")
       || jsstring_eqb (blob_type response) (js "image/png"))
  | None => false
  end.

(** The state after one attempt on [src]. *)
Definition after_attempt (src itemName : jsstring) (st : State) : State :=
  let st' := set_requests (requests st ++ [src]) st in
  if accepted src
  then set_currentDeck (currentDeck st' ++ [mkFlashcard src itemName]) st'
  else st'.

(** The indexed attempt on [itemName] with extension [ext] fails at
    index [i]. *)
Definition misses (itemName ext : jsstring) (i : nat) : bool :=
  negb (accepted (indexedSrc itemName i ext)).

(** The two URLs that the loop of lines 103-122 requests at index [i]. *)
Definition indexedSrcs (itemName : jsstring) (i : nat) : list jsstring :=
  [indexedSrc itemName i (js ".png"); indexedSrc itemName i (js ".jpg")].

(** The array under [itemNames] in the body of the config response, if the
    body parses as an object that has one. *)
Definition itemNames_array (text : jsstring) : option (list JSON.json) :=
  match JSON.parse text with
  | Some (JSON.JObject members) =>
      match JSON.get (js "itemNames") members with
      | Some (JSON.JArray elems) => Some elems
      | _ => None
      end
  | _ => None
  end.

(** The config fetch rejects, or its body is not an object with an
    [itemNames] array. *)
Definition config_failure : Prop :=
  network configUrl = None \/
  exists response,
    network configUrl = Some response /\ itemNames_array (body response) = None.

(** A sequence of [AddHistoryRecord] calls, one per flag and clock value. *)
Fixpoint record_answers (inputs : list (bool * Z)) : M unit :=
  match inputs with
  | [] => ret tt
  | (isCorrect, now) :: rest =>
      AddHistoryRecord isCorrect now ;; record_answers rest
  end.

End Composable.

(** The least index from [i] on, among [n] consecutive ones, at which [p]
    holds; [i + n] if there is none. *)
Fixpoint first_from (n i : nat) (p : nat -> bool) : nat :=
  match n with
  | 0 => i
  | S n' => if p i then i else first_from n' (S i) p
  end.

(** The least index in 1..9 at which [p] holds, and 10 if there is none. *)
Definition first_miss (p : nat -> bool) : nat := first_from 9 1 p.

(** Lines 193-196 on the array alone. *)
Definition push_bounded {A} (records : list A) (record : A) : list A :=
  let records := records ++ [record] in
  if 100 <? length records then tail records else records.

(** The objects that [record_answers inputs] creates from state [st]. *)
Definition created (st : State) (inputs : list (bool * Z))
    : list (oid * JSON.json) :=
  allocate (nextOid st)
    (List.map (fun i => encode_HistoryRecord
                          (HistoryRecord.mk (flashcard st) (fst i) (snd i)))
       inputs).

(** ** Auxiliary notions for the proofs *)

(** How many records have been evicted after [k] pushes onto [n] records. *)
Definition evicted (n k : nat) : nat := Nat.min k (n + k - 100).

(** Every card of the deck is one of [base] or was accepted by the network. *)
Definition deck_sound (network : jsstring -> option Response)
    (base : list Flashcard) (st : State) : Prop :=
  forall card, card ∈ currentDeck st ->
    card ∈ base \/ accepted network (imageSrc card) = true.

(** [m] keeps [I] however it ends. *)
Definition keeps {A} (I : State -> Prop) (m : M A) : Prop :=
  forall st, I st ->
    match m st with
    | Normal _ st' | Throw _ st' => I st'
    | Stuck _ => True
    end.

(** ** Sample environments *)

(** A site (under the base URL [/]) where [cat1.png] and [cat2.jpg] are
    missing and every other URL is an image of the type its extension
    announces. *)
Definition crossed_network (src : jsstring) : option Response :=
  if bool_decide (src = js "/photo/cat1.png")
     || bool_decide (src = js "/photo/cat2.jpg")
  then Some (mkResponse false (js "Not Found") (js "text/html") (js ""))
  else if bool_decide (drop (length src - 4) src = js ".png")
  then Some (mkResponse true (js "OK") (js "image/png") (js ""))
  else Some (mkResponse true (js "OK") (js "image/jpeg") (js "")).

(** A cached deck of two cards, as a deck and as the text in the store. *)
Definition cat_fox_deck : list Flashcard :=
  [mkFlashcard (js "/photo/cat.png") (js "cat");
   mkFlashcard (js "/photo/fox.jpg") (js "fox")].

Definition cat_fox_text : jsstring := stringify_deck cat_fox_deck.

(** No connection: every fetch rejects. *)
Definition unreachable_network (src : jsstring) : option Response := None.

(** A site whose config lists the single identifier [cat] and that serves
    [cat.png] alone; every other URL is answered 404 with an HTML page. *)
Definition cat_config : jsstring :=
  js "{" ++ JSON.quote (js "itemNames") ++ js ":[" ++ JSON.quote (js "cat") ++ js "]}".

Definition cat_network (src : jsstring) : option Response :=
  if bool_decide (src = js "/photo/deck-config.json")
  then Some (mkResponse true (js "OK") (js "application/json") cat_config)
  else if bool_decide (src = js "/photo/cat.png")
  then Some (mkResponse true (js "OK") (js "image/png") (js ""))
  else Some (mkResponse false (js "Not Found") (js "text/html") (js "")).

(** A stored history of 101 records, and its text. *)
Definition long_history : list HistoryRecord.t :=
  List.map (fun i => HistoryRecord.mk (mkFlashcard (js "/photo/cat.png") (js "cat"))
                       (Nat.even i) (1700000000000 + Z.of_nat i))
           (seq 0 101).

Definition long_history_text : jsstring := stringify_history long_history.

(** A stored array of 101 elements none of which is a history record. *)
Definition odd_history : list JSON.json :=
  repeat (JSON.JNumber 15 (-1)) 50 ++ repeat (JSON.JObject []) 50 ++ [JSON.JNull].

Definition odd_history_text : jsstring :=
  js "[" ++ join_with (js ",") (repeat (js "1.5") 50 ++ repeat (js "{}") 50 ++ [js "null"])
  ++ js "]".

(** ** Notions for the loader and the session *)

Section Candidates.
Variable BASE_URL : jsstring.
Variable network : jsstring -> option Response.

(** The two URLs of lines 83 and 91. *)
Definition baseSrcs (itemName : jsstring) : list jsstring :=
  [photoFolderPath BASE_URL ++ itemName ++ js ".png";
   photoFolderPath BASE_URL ++ itemName ++ js ".jpg"].

(** The last index that the loop of lines 103-122 tries: the index at
    which both flags are set, and 9 if that never happens. *)
Definition lastIndex (itemName : jsstring) : nat :=
  Nat.min 9
    (Nat.max (first_miss (misses BASE_URL network itemName (js ".png")))
             (first_miss (misses BASE_URL network itemName (js ".jpg")))).

(** Every URL that the body of the loop over the identifiers (lines 77-125)
    requests for [itemName], in the order of the requests. *)
Definition candidates (itemName : jsstring) : list jsstring :=
  baseSrcs itemName ++
  flat_map (indexedSrcs BASE_URL itemName) (seq 1 (lastIndex itemName)).

(** The cards that attempts on [srcs] push onto the deck. *)
Definition loaded (itemName : jsstring) (srcs : list jsstring) : list Flashcard :=
  List.map (fun src => mkFlashcard src itemName)
    (List.filter (accepted network) srcs).

(** The cards that one identifier contributes. *)
Definition cards_of (itemName : jsstring) : list Flashcard :=
  loaded itemName (candidates itemName).

(** The state after one attempt on each of [srcs], in order. *)
Definition attempts (itemName : jsstring) (srcs : list jsstring) (st : State)
    : State :=
  fold_left (fun st src => after_attempt network src itemName st) srcs st.

(** The identifiers that lines 59-71 leave in [itemNames]: those of the
    config, and none when the fetch rejects or the body has no [itemNames]
    array.  [None] when the array holds something else than strings. *)
Definition listed : option (list jsstring) :=
  match network (configUrl BASE_URL) with
  | None => Some []
  | Some response =>
      match itemNames_array (body response) with
      | None => Some []
      | Some elems => mapM JSON.as_string elems
      end
  end.

End Candidates.

(** [LoadDeckfromCache] gives nothing that line 155 takes for a deck: the
    entry is absent or empty, is not JSON, or parses to a falsy value
    ([null], [false], a zero or the empty string). *)
Definition cache_miss (storage : gmap jsstring jsstring) : bool :=
  match storage !! deckCacheKey with
  | None => true
  | Some text =>
      match JSON.parse text with
      | None => true
      | Some v => negb (JSON.truthy v)
      end
  end.


(** The active card is the placeholder or a card of the current deck. *)
Definition active_card_sound (st : State) : Prop :=
  flashcard st = placeholder \/ flashcard st ∈ currentDeck st.

(** * Properties *)

(** ** Adequacy of the random sources *)

Lemma random_index_reaches (n i : nat) :
  i < n -> exists r, random_index r n = i.
Proof.
  intros Hi. exists i. destruct n as [|n]; [lia|].
  unfold random_index. apply Nat.mod_small. exact Hi.
Qed.

Lemma insert_at_permutation {A} (i : nat) (x : A) (l : list A) :
  insert_at i x l ≡ₚ x :: l.
Proof.
  unfold insert_at. rewrite <- Permutation_middle, take_drop. reflexivity.
Qed.

Lemma sort_random_permutation {A} (draws : list nat) (l acc : list A) :
  sort_random draws l acc ≡ₚ l ++ acc.
Proof.
  revert draws acc. induction l as [|x l IH]; intros draws acc; cbn [sort_random].
  - reflexivity.
  - rewrite IH, insert_at_permutation. cbn [app].
    symmetry. apply Permutation_middle.
Qed.

Lemma sort_random_app {A} (d1 d2 : list nat) (l1 l2 acc : list A) :
  length d1 = length l1 ->
  sort_random (d1 ++ d2) (l1 ++ l2) acc =
  sort_random d2 l2 (sort_random d1 l1 acc).
Proof.
  revert d1 acc. induction l1 as [|x l1 IH]; intros d1 acc Hlen.
  - destruct d1; [reflexivity | discriminate Hlen].
  - destruct d1 as [|d d1]; [discriminate Hlen|].
    cbn [app sort_random hd tl]. apply IH. cbn in Hlen. lia.
Qed.

(** Every permutation of the identifiers is the outcome of some draws. *)
Lemma sort_random_reaches {A} (l target : list A) :
  l ≡ₚ target ->
  exists draws, length draws = length l /\ sort_random draws l [] = target.
Proof.
  revert target. induction l as [|x l IH] using rev_ind; intros target Hperm.
  - apply Permutation_nil in Hperm. subst target. exists []. split; reflexivity.
  - assert (Hin : x ∈ target).
    { rewrite <- Hperm. apply elem_of_app. right. apply list_elem_of_singleton. reflexivity. }
    apply list_elem_of_split in Hin as (t1 & t2 & ->).
    assert (Hrest : l ≡ₚ t1 ++ t2).
    { apply (Permutation_cons_inv (a := x)).
      rewrite Permutation_middle, <- Hperm, <- Permutation_cons_append.
      reflexivity. }
    destruct (IH _ Hrest) as (draws & Hlen & Hsort).
    exists (draws ++ [length t1]). split.
    + rewrite !length_app. cbn. lia.
    + rewrite sort_random_app by assumption. rewrite Hsort.
      cbn [sort_random hd]. unfold insert_at.
      rewrite Nat.mod_small by (rewrite length_app; lia).
      rewrite take_app_length, drop_app_length. reflexivity.
Qed.

(** ** JSON: what the composable writes, it reads back *)

Section RoundTrip.

Import JSON.

Lemma lex_from_app (s : lexstate) (a b : jsstring) :
  lex_from s (a ++ b) =
  match lex_from s a with
  | Some s' => lex_from s' b
  | None => None
  end.
Proof.
  revert s. induction a as [|c a IH]; intros s; [reflexivity|].
  cbn [app lex_from]. destruct (lex_step s c); [apply IH | reflexivity].
Qed.

Lemma hex_of_hex_digit (n : N) : (n < 16)%N -> hex_of (hex_digit n) = Some n.
Proof.
  intros Hn. unfold hex_digit, hex_of.
  destruct (N.ltb_spec n 10).
  - replace ((48 <=? 48 + n) && (48 + n <=? 57))%N with true
      by (symmetry; apply andb_true_iff; split; apply N.leb_le; lia).
    f_equal. lia.
  - replace ((48 <=? 87 + n) && (87 + n <=? 57))%N with false
      by (symmetry; apply andb_false_iff; right; apply N.leb_gt; lia).
    replace ((97 <=? 87 + n) && (87 + n <=? 102))%N with true
      by (symmetry; apply andb_true_iff; split; apply N.leb_le; lia).
    f_equal. lia.
Qed.

Lemma hex_value (c : N) :
  (c < 65536)%N ->
  ((((0 * 16 + c / 4096 mod 16) * 16 + c / 256 mod 16) * 16 + c / 16 mod 16) * 16
   + c mod 16 = c)%N.
Proof. intros Hc. zify. Z.to_euclidean_division_equations. lia. Qed.

Lemma lex_unicode_escape (acc : jsstring) (toks : list token) (c : N)
    (rest : jsstring) :
  (c < 65536)%N ->
  lex_from (LString acc, toks) (unicode_escape c ++ rest) =
  lex_from (LString (c :: acc), toks) rest.
Proof.
  intros Hc. unfold unicode_escape. cbn [app lex_from].
  change (lex_step (LString acc, toks) 92%N) with (Some (LEscape acc, toks)).
  cbv beta iota.
  change (lex_step (LEscape acc, toks) 117%N)
    with (Some (LUnicode acc 4 0%N, toks)).
  cbv beta iota. cbn [lex_step].
  rewrite hex_of_hex_digit by (apply N.mod_lt; discriminate).
  cbv beta iota. cbn [lex_step].
  rewrite hex_of_hex_digit by (apply N.mod_lt; discriminate).
  cbv beta iota. cbn [lex_step].
  rewrite hex_of_hex_digit by (apply N.mod_lt; discriminate).
  cbv beta iota. cbn [lex_step].
  rewrite hex_of_hex_digit by (apply N.mod_lt; discriminate).
  cbv beta iota. rewrite hex_value by exact Hc. reflexivity.
Qed.

Lemma lex_plain (acc : jsstring) (toks : list token) (c : N) (rest : jsstring) :
  c <> 34%N -> c <> 92%N -> (32 <= c)%N ->
  lex_from (LString acc, toks) (c :: rest) =
  lex_from (LString (c :: acc), toks) rest.
Proof.
  intros H34 H92 H32. cbn [lex_from lex_step].
  destruct (N.eqb_spec c 34); [congruence|].
  destruct (N.eqb_spec c 92); [congruence|].
  destruct (N.ltb_spec c 32); [lia|]. reflexivity.
Qed.

Lemma lex_escape_unit (acc : jsstring) (toks : list token) (c : N)
    (rest : jsstring) :
  lex_from (LString acc, toks) (escape_unit c ++ rest) =
  lex_from (LString (c :: acc), toks) rest.
Proof.
  unfold escape_unit, is_low_surrogate.
  destruct (N.eqb_spec c 8) as [->|]; [reflexivity|].
  destruct (N.eqb_spec c 9) as [->|]; [reflexivity|].
  destruct (N.eqb_spec c 10) as [->|]; [reflexivity|].
  destruct (N.eqb_spec c 12) as [->|]; [reflexivity|].
  destruct (N.eqb_spec c 13) as [->|]; [reflexivity|].
  destruct (N.eqb_spec c 34) as [->|]; [reflexivity|].
  destruct (N.eqb_spec c 92) as [->|]; [reflexivity|].
  destruct (N.ltb_spec c 32); [apply lex_unicode_escape; lia|].
  destruct (N.leb_spec 56320 c); cbn [andb];
    [destruct (N.leb_spec c 57343); [apply lex_unicode_escape; lia|]|];
    apply lex_plain; assumption.
Qed.

Lemma quote_units_cons (c d : N) (s : jsstring) :
  quote_units (c :: d :: s) =
  if is_high_surrogate c then
    if is_low_surrogate d then c :: d :: quote_units s
    else unicode_escape c ++ quote_units (d :: s)
  else escape_unit c ++ quote_units (d :: s).
Proof. reflexivity. Qed.

Lemma lex_quote_units (s : jsstring) :
  (forall acc toks rest,
      lex_from (LString acc, toks) (quote_units s ++ rest) =
      lex_from (LString (rev s ++ acc), toks) rest) /\
  (forall c acc toks rest,
      lex_from (LString acc, toks) (quote_units (c :: s) ++ rest) =
      lex_from (LString (rev (c :: s) ++ acc), toks) rest).
Proof.
  induction s as [|d s [IH1 IH2]].
  - split; [reflexivity|]. intros c acc toks rest. cbn [quote_units rev app].
    destruct (is_high_surrogate c) eqn:Hhigh.
    + apply lex_unicode_escape. unfold is_high_surrogate in Hhigh.
      apply andb_true_iff in Hhigh as [_ H]. apply N.leb_le in H. lia.
    + rewrite app_nil_r. apply lex_escape_unit.
  - split; [apply IH2|]. intros c acc toks rest.
    change (rev (c :: d :: s)) with ((rev s ++ [d]) ++ [c]).
    rewrite <- !app_assoc. cbn [app].
    rewrite quote_units_cons. destruct (is_high_surrogate c) eqn:Hhigh.
    + unfold is_high_surrogate in Hhigh.
      apply andb_true_iff in Hhigh as [Hlo Hhi].
      apply N.leb_le in Hlo, Hhi.
      destruct (is_low_surrogate d) eqn:Hlow.
      * unfold is_low_surrogate in Hlow.
        apply andb_true_iff in Hlow as [Hlo' Hhi'].
        apply N.leb_le in Hlo', Hhi'.
        cbn [app]. rewrite lex_plain by lia. rewrite lex_plain by lia.
        apply IH1.
      * rewrite <- app_assoc, lex_unicode_escape by lia.
        rewrite IH2. cbn [rev]. rewrite <- app_assoc. reflexivity.
    + rewrite <- app_assoc, lex_escape_unit.
      rewrite IH2. cbn [rev]. rewrite <- app_assoc. reflexivity.
Qed.

Lemma lex_quote (s : jsstring) (toks : list token) (rest : jsstring) :
  lex_from (LDefault, toks) (quote s ++ rest) =
  lex_from (LDefault, TString s :: toks) rest.
Proof.
  unfold quote. rewrite <- !app_assoc. cbn [app lex_from].
  change (lex_step (LDefault, toks) 34%N) with (Some (LString [], toks)).
  cbv beta iota. rewrite (proj1 (lex_quote_units s)).
  cbn [lex_from lex_step]. change (34 =? 34)%N with true. cbv iota.
  rewrite app_nil_r, rev_involutive. reflexivity.
Qed.

Lemma lex_stringify_Flashcard (c : Flashcard) (toks : list token)
    (rest : jsstring) :
  lex_from (LDefault, toks) (stringify_Flashcard c ++ rest) =
  lex_from (LDefault, rev (tokens_Flashcard c) ++ toks) rest.
Proof.
  unfold stringify_Flashcard. rewrite <- !app_assoc.
  change (js "{" ++ ?x) with (123%N :: x). cbn [lex_from].
  change (lex_step (LDefault, toks) 123%N) with (Some (LDefault, TLBrace :: toks)).
  cbv beta iota. rewrite lex_quote.
  change (js ":" ++ ?x) with (58%N :: x). cbn [lex_from].
  change (lex_step (LDefault, ?t) 58%N) with (Some (LDefault, TColon :: t)).
  cbv beta iota. rewrite lex_quote.
  change (js "," ++ ?x) with (44%N :: x). cbn [lex_from].
  change (lex_step (LDefault, ?t) 44%N) with (Some (LDefault, TComma :: t)).
  cbv beta iota. rewrite lex_quote.
  change (js ":" ++ ?x) with (58%N :: x). cbn [lex_from].
  change (lex_step (LDefault, ?t) 58%N) with (Some (LDefault, TColon :: t)).
  cbv beta iota. rewrite lex_quote.
  change (js "}" ++ ?x) with (125%N :: x). cbn [lex_from].
  change (lex_step (LDefault, ?t) 125%N) with (Some (LDefault, TRBrace :: t)).
  cbv beta iota. reflexivity.
Qed.

Lemma parse_from_app (p : pstate) (a b : list token) :
  parse_from p (a ++ b) =
  match parse_from p a with
  | Some p' => parse_from p' b
  | None => None
  end.
Proof.
  revert p. induction a as [|t a IH]; intros p; [reflexivity|].
  cbn [app parse_from]. destruct (parse_step p t); [apply IH | reflexivity].
Qed.

Lemma parse_tokens_Flashcard (c : Flashcard) (first : bool) (acc : list json)
    (stack : list frame) :
  parse_from (FArray acc :: stack, if first then EValueOrClose else EValue)
    (tokens_Flashcard c) =
  Some (FArray (encode_Flashcard c :: acc) :: stack, EAfter).
Proof. destruct first; reflexivity. Qed.

Lemma decode_encode_Flashcard (c : Flashcard) :
  decode_Flashcard (encode_Flashcard c) = Some c.
Proof. destruct c. reflexivity. Qed.

Lemma decode_encode_deck (deck : list Flashcard) :
  decode_deck (JArray (List.map encode_Flashcard deck)) = Some deck.
Proof.
  unfold decode_deck. apply mapM_Some_2.
  induction deck as [|c deck IH]; constructor;
    [apply decode_encode_Flashcard | exact IH].
Qed.

Lemma nzhead_not_D0 (d l : Decimal.uint) : Decimal.nzhead d <> Decimal.D0 l.
Proof. induction d; cbn; try discriminate; assumption. Qed.

Lemma to_uint_head (p : positive) :
  match Pos.to_uint p with
  | Decimal.Nil | Decimal.D0 _ => False
  | _ => True
  end.
Proof.
  pose proof (DecimalPos.Unsigned.to_of (Pos.to_uint p)) as H.
  rewrite DecimalPos.Unsigned.of_to in H. cbn [N.to_uint] in H.
  pose proof (Unsigned.to_uint_nonnil p) as Hnil.
  pose proof (Unsigned.to_uint_nonzero p) as Hzero.
  destruct (Pos.to_uint p) as [|l| | | | | | | | |] eqn:E; try exact I;
    [congruence|].
  unfold Decimal.unorm in H. cbn [Decimal.nzhead] in H.
  destruct (Decimal.nzhead l) eqn:El; try congruence.
  exfalso. apply (nzhead_not_D0 l u). congruence.
Qed.

(** The digits of a decimal numeral, read after a first non-zero digit. *)
Lemma lex_digits (l : Decimal.uint) (n : numacc) (a : positive)
    (toks : list token) (rest : jsstring) :
  mant n = N.pos a ->
  lex_from (LNumber NInt n, toks) (js (NilEmpty.string_of_uint l) ++ rest) =
  lex_from
    (LNumber NInt
       (mkNum (neg n) (N.pos (Pos.of_uint_acc l a)) (fracLen n) (eneg n) (expo n)),
     toks) rest.
Proof.
  revert n a. induction l; intros n a Hn;
    cbn [NilEmpty.string_of_uint Pos.of_uint_acc].
  1: { change (js "" ++ rest) with rest. destruct n; cbn in *. subst. reflexivity. }
  all: match goal with
       | |- context [js (String ?c ?s)] =>
           change (js (String c s)) with (N_of_ascii c :: js s)
       end;
       cbn [app lex_from];
       match goal with
       | |- context [lex_step ?st ?c] =>
           let r := eval cbv in (digit_of c) in
           match r with
           | Some ?d =>
               change (lex_step st c)
                 with (Some (LNumber NInt (push_digit d n), toks))
           end
       end;
       cbv beta iota;
       match goal with
       | |- lex_from (LNumber NInt ?m, _) _ = _ =>
           match goal with
           | |- context [Pos.of_uint_acc _ ?a'] =>
               rewrite (IHl m a') by (cbn [push_digit mant]; rewrite Hn; lia)
           end
       end;
       reflexivity.
Qed.

(** A number printed by [String_] and closed by a brace is read back. *)
Lemma lex_String_ (z : Z) (toks : list token) (rest : jsstring) :
  lex_from (LDefault, toks) (String_ z ++ 125%N :: rest) =
  lex_from (LDefault, TRBrace :: TNumber z 0 :: toks) rest.
Proof.
  unfold String_. destruct z as [|p|p]; [reflexivity| |];
    cbn [Z.to_int NilZero.string_of_int];
    pose proof (to_uint_head p) as Hhead;
    pose proof (DecimalPos.Unsigned.of_to p) as Hval;
    destruct (Pos.to_uint p) as [|l|l|l|l|l|l|l|l|l|l]; try contradiction;
    cbn [NilZero.string_of_uint NilEmpty.string_of_uint];
    repeat match goal with
           | |- context [js (String ?c ?s)] =>
               change (js (String c s)) with (N_of_ascii c :: js s)
           end;
    cbn [app lex_from N_of_ascii];
    repeat match goal with
           | |- context [lex_step (?m, ?t) ?c] =>
               let r := eval cbv in (lex_step (m, t) c) in
               change (lex_step (m, t) c) with r; cbv beta iota
           end;
    (erewrite lex_digits by reflexivity);
    cbn [lex_from lex_step number_step];
    change (digit_of 125%N) with (@None N);
    change (125 =? 46)%N with false; change (is_e 125%N) with false;
    cbv beta iota; cbn [neg mant fracLen eneg expo];
    cbn [Pos.of_uint] in Hval; injection Hval as ->;
    reflexivity.
Qed.

Lemma lex_stringify_HistoryRecord (r : HistoryRecord.t) (toks : list token)
    (rest : jsstring) :
  lex_from (LDefault, toks) (stringify_HistoryRecord r ++ rest) =
  lex_from (LDefault, rev (tokens_HistoryRecord r) ++ toks) rest.
Proof.
  unfold stringify_HistoryRecord. rewrite <- !app_assoc.
  change (js "{" ++ ?x) with (123%N :: x). cbn [lex_from].
  change (lex_step (LDefault, toks) 123%N) with (Some (LDefault, TLBrace :: toks)).
  cbv beta iota. rewrite lex_quote.
  change (js ":" ++ ?x) with (58%N :: x). cbn [lex_from].
  change (lex_step (LDefault, ?t) 58%N) with (Some (LDefault, TColon :: t)).
  cbv beta iota. rewrite lex_stringify_Flashcard.
  change (js "," ++ ?x) with (44%N :: x). cbn [lex_from].
  change (lex_step (LDefault, ?t) 44%N) with (Some (LDefault, TComma :: t)).
  cbv beta iota. rewrite lex_quote.
  change (js ":" ++ ?x) with (58%N :: x). cbn [lex_from].
  change (lex_step (LDefault, ?t) 58%N) with (Some (LDefault, TColon :: t)).
  cbv beta iota.
  assert (Hbool : forall t x,
    lex_from (LDefault, t)
      ((if HistoryRecord.isCorrect r then js "true" else js "false") ++ x) =
    lex_from
      (LDefault, (if HistoryRecord.isCorrect r then TTrue else TFalse) :: t) x)
    by (intros t x; destruct (HistoryRecord.isCorrect r); reflexivity).
  rewrite Hbool.
  change (js "," ++ ?x) with (44%N :: x). cbn [lex_from].
  change (lex_step (LDefault, ?t) 44%N) with (Some (LDefault, TComma :: t)).
  cbv beta iota. rewrite lex_quote.
  change (js ":" ++ ?x) with (58%N :: x). cbn [lex_from].
  change (lex_step (LDefault, ?t) 58%N) with (Some (LDefault, TColon :: t)).
  cbv beta iota.
  change (js "}" ++ rest) with (125%N :: rest). rewrite lex_String_.
  unfold tokens_HistoryRecord. rewrite !rev_app_distr. reflexivity.
Qed.

Lemma parse_tokens_HistoryRecord (r : HistoryRecord.t) (first : bool)
    (acc : list json) (stack : list frame) :
  parse_from (FArray acc :: stack, if first then EValueOrClose else EValue)
    (tokens_HistoryRecord r) =
  Some (FArray (encode_HistoryRecord r :: acc) :: stack, EAfter).
Proof. destruct first, r as [c [] t]; reflexivity. Qed.

(** Arrays: the text of the elements joined by commas, between brackets. *)

Section Arrays.

Context {A : Type}.
Variable text : A -> jsstring.
Variable tokens : A -> list token.
Variable encode : A -> json.

Hypothesis lex_element : forall a toks rest,
  lex_from (LDefault, toks) (text a ++ rest) =
  lex_from (LDefault, rev (tokens a) ++ toks) rest.

Hypothesis parse_element : forall a (first : bool) acc stack,
  parse_from (FArray acc :: stack, if first then EValueOrClose else EValue)
    (tokens a) =
  Some (FArray (encode a :: acc) :: stack, EAfter).

Lemma lex_join_with (l : list A) (toks : list token) (rest : jsstring) :
  lex_from (LDefault, toks) (join_with (js ",") (List.map text l) ++ rest) =
  lex_from (LDefault, rev (join_tokens (List.map tokens l)) ++ toks) rest.
Proof.
  revert toks. induction l as [|a l IH]; intros toks; [reflexivity|].
  destruct l as [|b l].
  - cbn [List.map join_with join_tokens]. apply lex_element.
  - change (join_with (js ",") (List.map text (a :: b :: l)))
      with (text a ++ js "," ++ join_with (js ",") (List.map text (b :: l))).
    change (join_tokens (List.map tokens (a :: b :: l)))
      with (tokens a ++ TComma :: join_tokens (List.map tokens (b :: l))).
    rewrite <- !app_assoc, lex_element.
    change (js "," ++ ?x) with (44%N :: x). cbn [lex_from].
    change (lex_step (LDefault, ?t) 44%N) with (Some (LDefault, TComma :: t)).
    cbv beta iota. rewrite IH. f_equal. f_equal.
    rewrite rev_app_distr. cbn [rev]. rewrite <- !app_assoc. reflexivity.
Qed.

Lemma parse_join_tokens (l : list A) (first : bool) (acc : list json)
    (stack : list frame) :
  l <> [] ->
  parse_from (FArray acc :: stack, if first then EValueOrClose else EValue)
    (join_tokens (List.map tokens l)) =
  Some (FArray (rev (List.map encode l) ++ acc) :: stack, EAfter).
Proof.
  revert first acc. induction l as [|a l IH]; intros first acc Hne;
    [congruence|].
  destruct l as [|b l].
  - cbn [List.map join_tokens]. apply parse_element.
  - change (join_tokens (List.map tokens (a :: b :: l)))
      with (tokens a ++ TComma :: join_tokens (List.map tokens (b :: l))).
    rewrite parse_from_app, parse_element. cbn [parse_from parse_step].
    rewrite (IH false) by discriminate.
    change (List.map encode (a :: b :: l))
      with (encode a :: List.map encode (b :: l)).
    cbn [rev]. rewrite <- app_assoc. reflexivity.
Qed.

Lemma parse_array (l : list A) :
  parse (js "[" ++ join_with (js ",") (List.map text l) ++ js "]") =
  Some (JArray (List.map encode l)).
Proof.
  unfold parse, lex.
  change (js "[" ++ ?x) with (91%N :: x). cbn [lex_from].
  change (lex_step (LDefault, []) 91%N) with (Some (LDefault, [TLBracket])).
  cbv beta iota. rewrite lex_join_with. change (js "]") with [93%N].
  cbn [lex_from].
  change (lex_step (LDefault, ?t) 93%N) with (Some (LDefault, TRBracket :: t)).
  cbv beta iota. cbn [lex_end rev]. rewrite rev_app_distr, rev_involutive.
  cbn [rev app parse_from parse_step value_step].
  destruct l as [|a l]; [reflexivity|].
  rewrite parse_from_app, (parse_join_tokens (a :: l) true) by discriminate.
  cbn [parse_from parse_step deliver]. rewrite app_nil_r, rev_involutive.
  reflexivity.
Qed.

End Arrays.

(** What [saveDeckCache] writes is read back as the same deck. *)
Lemma stringify_deck_parse (deck : list Flashcard) :
  parse (stringify_deck deck) = Some (JArray (List.map encode_Flashcard deck)).
Proof.
  apply parse_array with (tokens := tokens_Flashcard).
  - apply lex_stringify_Flashcard.
  - apply parse_tokens_Flashcard.
Qed.

Lemma stringify_encode_Flashcard (c : Flashcard) :
  stringify (encode_Flashcard c) = Some (stringify_Flashcard c).
Proof.
  destruct c as [i n]. unfold stringify_Flashcard, encode_Flashcard.
  cbn [imageSrc name stringify List.map].
  change (own_properties ?l) with l.
  cbn [List.map all_some join_with]. f_equal.
  unfold quote. rewrite <- !app_assoc. reflexivity.
Qed.

Lemma number_text_safe (z : Z) :
  safe_integer z -> number_text z 0 = Some (String_ z).
Proof.
  unfold safe_integer. intros Hz. apply Z.ltb_lt in Hz.
  unfold number_text, as_integer. change (0 <=? 0)%Z with true. cbv iota.
  change (10 ^ 0)%Z with 1%Z. rewrite Z.mul_1_r, Hz. reflexivity.
Qed.

(** The text of a record that [AddHistoryRecord] made. *)
Lemma stringify_encode_HistoryRecord (r : HistoryRecord.t) :
  safe_integer (HistoryRecord.timestamp r) ->
  stringify (encode_HistoryRecord r) = Some (stringify_HistoryRecord r).
Proof.
  destruct r as [[i n] b t]. cbn [HistoryRecord.timestamp]. intros Ht.
  unfold encode_HistoryRecord.
  cbn [HistoryRecord.flashcard HistoryRecord.isCorrect HistoryRecord.timestamp].
  cbn [stringify List.map]. rewrite (number_text_safe t Ht).
  fold (stringify (encode_Flashcard (mkFlashcard i n))).
  rewrite stringify_encode_Flashcard.
  change (own_properties ?l) with l.
  cbn [List.map all_some join_with]. f_equal.
  unfold stringify_HistoryRecord.
  cbn [HistoryRecord.flashcard HistoryRecord.isCorrect HistoryRecord.timestamp].
  rewrite <- !app_assoc. reflexivity.
Qed.

(** The text of a history of records is read back as these records. *)
Lemma stringify_history_parse (records : list HistoryRecord.t) :
  parse (stringify_history records) =
  Some (JArray (List.map encode_HistoryRecord records)).
Proof.
  apply parse_array with (tokens := tokens_HistoryRecord).
  - apply lex_stringify_HistoryRecord.
  - apply parse_tokens_HistoryRecord.
Qed.

Lemma stringify_encoded_history (records : list HistoryRecord.t) :
  Forall (fun r => safe_integer (HistoryRecord.timestamp r)) records ->
  stringify (JArray (List.map encode_HistoryRecord records)) =
  Some (stringify_history records).
Proof.
  intros Hsafe. cbn [stringify]. unfold stringify_history.
  assert (Htexts : all_some (List.map stringify (List.map encode_HistoryRecord records))
                   = Some (List.map stringify_HistoryRecord records)).
  { induction Hsafe as [|r records Hr _ IH]; [reflexivity|].
    cbn [List.map all_some]. rewrite (stringify_encode_HistoryRecord r Hr), IH.
    reflexivity. }
  rewrite Htexts. reflexivity.
Qed.

End RoundTrip.

(** ** The history *)

Lemma AddHistoryRecord_run (isCorrect : bool) (now : Z) (st : State) :
  AddHistoryRecord isCorrect now st =
  Normal tt
    (set_historyRecords
       (push_bounded (historyRecords st)
          (nextOid st,
           encode_HistoryRecord (HistoryRecord.mk (flashcard st) isCorrect now)))
       (set_nextOid (S (nextOid st)) st)).
Proof.
  destruct st. unfold AddHistoryRecord, push_bounded, bind, gets, modify, ret.
  cbn -[Nat.ltb].
  match goal with |- context [100 <? ?n] => destruct (100 <? n) end; reflexivity.
Qed.

Lemma fold_push_bounded {A} (new records : list A) :
  fold_left push_bounded new records =
  drop (evicted (length records) (length new)) (records ++ new).
Proof.
  revert records. induction new as [|x new IH]; intros records.
  - cbn. unfold evicted. cbn. rewrite app_nil_r. reflexivity.
  - cbn [fold_left]. rewrite IH. unfold push_bounded, evicted.
    rewrite length_app. cbn [length].
    destruct (Nat.ltb_spec 100 (length records + 1)) as [H|H].
    + destruct records as [|y records]; [cbn in H; lia|].
      cbn [app tail length] in *. rewrite length_app. cbn [length].
      replace (Nat.min (S (length new)) (S (length records) + S (length new) - 100))
        with (S (Nat.min (length new) (length records + 1 + length new - 100))) by lia.
      cbn [drop]. rewrite <- app_assoc. reflexivity.
    + rewrite <- app_assoc. cbn [app]. f_equal. rewrite length_app. cbn [length]. lia.
Qed.

Lemma allocate_cons {A} (first : oid) (x : A) (objects : list A) :
  allocate first (x :: objects) = (first, x) :: allocate (S first) objects.
Proof. reflexivity. Qed.

Lemma allocate_app {A} (first : oid) (l k : list A) :
  allocate first (l ++ k) = allocate first l ++ allocate (first + length l) k.
Proof.
  revert first. induction l as [|x l IH]; intros first.
  - cbn. rewrite Nat.add_0_r. reflexivity.
  - cbn [app length]. rewrite !allocate_cons, IH. cbn [app].
    replace (S first + length l) with (first + S (length l)) by lia. reflexivity.
Qed.

Lemma allocate_length {A} (first : oid) (objects : list A) :
  length (allocate first objects) = length objects.
Proof.
  unfold allocate. rewrite length_zip, length_seq. lia.
Qed.

Lemma allocate_snd {A} (first : oid) (objects : list A) :
  List.map snd (allocate first objects) = objects.
Proof.
  revert first. induction objects as [|x l IH]; intros first; [reflexivity|].
  rewrite allocate_cons. cbn. rewrite IH. reflexivity.
Qed.

Lemma allocate_oid {A} (first o : oid) (x : A) (objects : list A) :
  (o, x) ∈ allocate first objects -> first <= o < first + length objects.
Proof.
  revert first. induction objects as [|y l IH]; intros first Hin.
  - inversion Hin.
  - rewrite allocate_cons in Hin. apply elem_of_cons in Hin as [Heq|Hin].
    + injection Heq as -> ->. cbn. lia.
    + apply IH in Hin. cbn. lia.
Qed.

Lemma created_cons (st : State) (input : bool * Z) (inputs : list (bool * Z)) :
  created st (input :: inputs) =
  (nextOid st,
   encode_HistoryRecord (HistoryRecord.mk (flashcard st) (fst input) (snd input))) ::
  allocate (S (nextOid st))
    (List.map (fun i => encode_HistoryRecord
                          (HistoryRecord.mk (flashcard st) (fst i) (snd i)))
       inputs).
Proof. reflexivity. Qed.

Lemma created_length (st : State) (inputs : list (bool * Z)) :
  length (created st inputs) = length inputs.
Proof. unfold created. rewrite allocate_length, length_map. reflexivity. Qed.

Lemma record_answers_run (inputs : list (bool * Z)) (st : State) :
  record_answers inputs st =
  Normal tt
    (set_historyRecords
       (fold_left push_bounded (created st inputs) (historyRecords st))
       (set_nextOid (nextOid st + length inputs) st)).
Proof.
  revert st. induction inputs as [|[isCorrect now] inputs IH]; intros st.
  - destruct st. cbn. rewrite Nat.add_0_r. reflexivity.
  - cbn [record_answers]. unfold bind at 1. rewrite AddHistoryRecord_run, IH.
    rewrite created_cons. destruct st. cbn -[push_bounded allocate].
    unfold set_historyRecords, set_nextOid. cbn -[push_bounded allocate].
    repeat f_equal. lia.
Qed.

(** C2, as stated, fails once a stored history of more than 100 records has
    been read: the first [useFlashcard] installs its 101 records, and an
    answer leaves 101 records again. *)
Lemma history_stays_above_the_cap_after_a_long_stored_history :
  exists st1 st',
    useFlashcard (js "/") 0 (initialState {[historyKey := long_history_text]})
      = Normal tt st1 /\
    length (historyRecords st1) = 101 /\
    AddHistoryRecord true 1700000000500 st1 = Normal tt st' /\
    length (historyRecords st') = 101.
Proof.
  eexists _, _. split; [vm_compute; reflexivity|].
  split; [vm_compute; reflexivity|].
  split; [vm_compute; reflexivity|].
  vm_compute. reflexivity.
Qed.

(** C2, amended: after [k] calls of [AddHistoryRecord] on a history of [n]
    records the history has [max n (min (n + k) 100)] records: a history
    within the cap stays within it, a longer one (read from the store) keeps
    its length.  From the empty history 101 calls leave exactly 100 records,
    those of the calls 2 to 101 in that order: the record created first is
    gone and the record created last is there. *)
Theorem history_keeps_the_newest_100 (st : State) (first : bool * Z)
    (middle : list (bool * Z)) (last : bool * Z) :
  historyRecords st = [] ->
  length middle = 99 ->
  (forall st0 inputs,
      exists st',
        record_answers inputs st0 = Normal tt st' /\
        length (historyRecords st') =
          Nat.max (length (historyRecords st0))
                  (Nat.min (length (historyRecords st0) + length inputs) 100) /\
        (length (historyRecords st0) <= 100 ->
         length (historyRecords st') <= 100)) /\
  (exists st',
      record_answers (first :: middle ++ [last]) st = Normal tt st' /\
      length (historyRecords st') = 100 /\
      List.map snd (historyRecords st') =
        List.map (fun i => encode_HistoryRecord
                             (HistoryRecord.mk (flashcard st) (fst i) (snd i)))
          (middle ++ [last]) /\
      ((nextOid st,
        encode_HistoryRecord (HistoryRecord.mk (flashcard st) (fst first) (snd first)))
         ∉ historyRecords st') /\
      ((nextOid st + 100,
        encode_HistoryRecord (HistoryRecord.mk (flashcard st) (fst last) (snd last)))
         ∈ historyRecords st')).
Proof.
  intros Hempty Hmid. split.
  - intros st0 inputs. eexists. split; [apply record_answers_run|].
    cbn -[created Nat.max Nat.min].
    rewrite fold_push_bounded, length_drop, length_app, created_length.
    unfold evicted. lia.
  - eexists. split; [apply record_answers_run|].
    cbn -[created]. rewrite fold_push_bounded, Hempty. cbn [app length].
    assert (Hlen : length (first :: middle ++ [last]) = 101)
      by (rewrite length_cons, length_app, Hmid; reflexivity).
    rewrite created_length, Hlen. change (evicted 0 101) with 1.
    rewrite created_cons. cbn [drop]. rewrite drop_0, map_app, allocate_app.
    rewrite length_map, Hmid. split; [|split; [|split]].
    + rewrite length_app, !allocate_length, length_map, Hmid. reflexivity.
    + rewrite List.map_app, !allocate_snd, <- List.map_app. reflexivity.
    + intros Hin. apply elem_of_app in Hin as [Hin|Hin];
        apply allocate_oid in Hin; lia.
    + apply elem_of_app. right. cbn.
      replace (S (nextOid st + 99)) with (nextOid st + 100) by lia.
      apply list_elem_of_singleton. reflexivity.
Qed.

Lemma history_keeps_the_newest_100_witness :
  (forall st0 inputs,
      exists st',
        record_answers inputs st0 = Normal tt st' /\
        length (historyRecords st') =
          Nat.max (length (historyRecords st0))
                  (Nat.min (length (historyRecords st0) + length inputs) 100) /\
        (length (historyRecords st0) <= 100 ->
         length (historyRecords st') <= 100)) /\
  (exists st',
      record_answers ((true, 1%Z) :: repeat (false, 2%Z) 99 ++ [(true, 3%Z)])
        (initialState ∅) = Normal tt st' /\
      length (historyRecords st') = 100 /\
      List.map snd (historyRecords st') =
        List.map (fun i => encode_HistoryRecord
                             (HistoryRecord.mk (flashcard (initialState ∅))
                                (fst i) (snd i)))
          (repeat (false, 2%Z) 99 ++ [(true, 3%Z)]) /\
      ((0, encode_HistoryRecord (HistoryRecord.mk placeholder true 1))
         ∉ historyRecords st') /\
      ((100, encode_HistoryRecord (HistoryRecord.mk placeholder true 3))
         ∈ historyRecords st')).
Proof.
  apply (history_keeps_the_newest_100 (initialState ∅) (true, 1%Z)
           (repeat (false, 2%Z) 99) (true, 3%Z)).
  - reflexivity.
  - vm_compute. reflexivity.
Defined.

Lemma last_push_bounded {A} (records : list A) (record : A) :
  last (push_bounded records record) = Some record.
Proof.
  unfold push_bounded.
  destruct (Nat.ltb_spec 100 (length (records ++ [record]))) as [H|H].
  - destruct records as [|x records]; [cbn in H; lia|]. apply last_snoc.
  - apply last_snoc.
Qed.

Lemma NextCard_run (r : nat) (st : State) :
  NextCard r st =
  Normal tt
    (set_showAnswer false
       (set_flashcard
          (default placeholder
             (currentDeck st !! random_index r (length (currentDeck st))))
          (set_cardIndex (random_index r (length (currentDeck st))) st))).
Proof. reflexivity. Qed.


Lemma handleAnswer_keeps_the_cap (isCorrect : bool) (now : Z) (r : nat)
    (st : State) :
  length (historyRecords st) <= 100 ->
  exists st',
    handleAnswer isCorrect now r st = Normal tt st' /\
    length (historyRecords st') <= 100.
Proof.
  intros Hcap. unfold handleAnswer, bind.
  rewrite AddHistoryRecord_run, NextCard_run. eexists. split; [reflexivity|].
  cbn -[push_bounded].
  change (push_bounded (historyRecords st) ?x)
    with (fold_left push_bounded [x] (historyRecords st)).
  rewrite fold_push_bounded, length_drop, length_app. unfold evicted.
  cbn [length]. lia.
Qed.

(** ** The empty deck *)

(** C7: on an empty deck [NextCard] does not fail; the active card becomes
    the placeholder with two empty fields and the answer is hidden. *)
Theorem NextCard_on_empty_deck (r : nat) (st : State) :
  currentDeck st = [] ->
  exists st',
    NextCard r st = Normal tt st' /\
    imageSrc (flashcard st') = js "" /\
    name (flashcard st') = js "" /\
    showAnswer st' = false.
Proof.
  intros Hdeck. eexists. split; [apply NextCard_run|].
  cbn. rewrite Hdeck. cbn. auto.
Qed.

Lemma NextCard_on_empty_deck_witness :
  exists st',
    NextCard 5 (initialState ∅) = Normal tt st' /\
    imageSrc (flashcard st') = js "" /\
    name (flashcard st') = js "" /\
    showAnswer st' = false.
Proof. apply (NextCard_on_empty_deck 5 (initialState ∅)). reflexivity. Defined.

(** ** The stored history *)

Lemma LoadHistoryfromLocal_run (st : State) (text : jsstring)
    (elems : list JSON.json) :
  localStorage st !! historyKey = Some text ->
  JSON.parse text = Some (JSON.JArray elems) ->
  LoadHistoryfromLocal st =
  Normal tt
    (set_nextOid (nextOid st + length elems)
       (set_historyRecords (allocate (nextOid st) elems) st)).
Proof.
  intros Hget Hparse. unfold LoadHistoryfromLocal, bind, gets.
  rewrite Hget. destruct text as [|c text]; [discriminate Hparse|].
  rewrite Hparse. reflexivity.
Qed.

(** C10: whatever array the stored text holds, [LoadHistoryfromLocal] makes
    its elements the history, all of them, in order and as they are: records
    or not, however many.  Above 100 elements every later
    [AddHistoryRecord] drops one oldest entry for the one it appends, so the
    length stays above the cap. *)
Theorem LoadHistoryfromLocal_installs_verbatim (st : State) (text : jsstring)
    (elems : list JSON.json) :
  localStorage st !! historyKey = Some text ->
  JSON.parse text = Some (JSON.JArray elems) ->
  exists st',
    LoadHistoryfromLocal st = Normal tt st' /\
    List.map snd (historyRecords st') = elems /\
    length (historyRecords st') = length elems /\
    (100 < length elems ->
     forall inputs, exists st'',
       record_answers inputs st' = Normal tt st'' /\
       historyRecords st'' =
         drop (length inputs) (historyRecords st' ++ created st' inputs) /\
       length (historyRecords st'') = length elems).
Proof.
  intros Hget Hparse. eexists.
  split; [eapply LoadHistoryfromLocal_run; eassumption|].
  cbn -[allocate]. split; [apply allocate_snd|].
  split; [apply allocate_length|].
  intros Hlong inputs. eexists. split; [apply record_answers_run|].
  cbn -[allocate created]. rewrite fold_push_bounded, allocate_length, created_length.
  replace (evicted (length elems) (length inputs)) with (length inputs)
    by (unfold evicted; lia).
  split; [reflexivity|].
  rewrite length_drop, length_app, allocate_length, created_length. lia.
Qed.

Lemma LoadHistoryfromLocal_installs_verbatim_witness :
  exists st',
    LoadHistoryfromLocal (initialState {[historyKey := odd_history_text]})
      = Normal tt st' /\
    List.map snd (historyRecords st') = odd_history /\
    length (historyRecords st') = length odd_history /\
    (100 < length odd_history ->
     forall inputs, exists st'',
       record_answers inputs st' = Normal tt st'' /\
       historyRecords st'' =
         drop (length inputs) (historyRecords st' ++ created st' inputs) /\
       length (historyRecords st'') = length odd_history).
Proof.
  apply (LoadHistoryfromLocal_installs_verbatim
           (initialState {[historyKey := odd_history_text]})
           odd_history_text odd_history).
  - vm_compute. reflexivity.
  - vm_compute. reflexivity.
Defined.

(** ** The deck cache *)

Lemma LoadDeckfromCache_falsy (st : State) :
  localStorage st !! deckCacheKey = None \/
  localStorage st !! deckCacheKey = Some [] ->
  LoadDeckfromCache st = Normal JSON.JNull st.
Proof.
  intros [H|H]; unfold LoadDeckfromCache, bind, gets; rewrite H; reflexivity.
Qed.

Lemma LoadDeckfromCache_malformed (st : State) (c : N) (text : jsstring) :
  localStorage st !! deckCacheKey = Some (c :: text) ->
  JSON.parse (c :: text) = None ->
  LoadDeckfromCache st =
  Normal JSON.JNull (set_localStorage (delete deckCacheKey (localStorage st)) st).
Proof.
  intros Hget Hparse. unfold LoadDeckfromCache, bind, gets.
  rewrite Hget, Hparse. reflexivity.
Qed.

Lemma LoadDeckfromCache_parsed (st : State) (text : jsstring) (v : JSON.json) :
  localStorage st !! deckCacheKey = Some text ->
  JSON.parse text = Some v ->
  LoadDeckfromCache st = Normal v st.
Proof.
  intros Hget Hparse. unfold LoadDeckfromCache, bind, gets. rewrite Hget.
  destruct text as [|c text]; [discriminate Hparse|].
  rewrite Hparse. reflexivity.
Qed.

(** C5, as stated, fails on the empty string: it is not valid JSON, the
    read reports absent, and the entry is still in the store. *)
Lemma LoadDeckfromCache_keeps_the_empty_string :
  JSON.parse (js "") = None /\
  exists st',
    LoadDeckfromCache (initialState {[deckCacheKey := js ""]})
      = Normal JSON.JNull st' /\
    localStorage st' !! deckCacheKey = Some (js "").
Proof.
  split; [reflexivity|]. eexists. split; [reflexivity|].
  cbn [initialState localStorage]. apply lookup_singleton_eq.
Qed.

(** C5, amended: a stored value that is not valid JSON never makes the read
    throw; the read reports absent, a non-empty value is removed from the
    store (the empty string is left where it is), and every later read
    reports absent as well. *)
Theorem LoadDeckfromCache_fails_soft (st : State) (text : jsstring) :
  localStorage st !! deckCacheKey = Some text ->
  JSON.parse text = None ->
  exists st',
    LoadDeckfromCache st = Normal JSON.JNull st' /\
    (text <> [] -> localStorage st' !! deckCacheKey = None) /\
    (text = [] -> st' = st) /\
    LoadDeckfromCache st' = Normal JSON.JNull st'.
Proof.
  intros Hget Hparse. destruct text as [|c text].
  - exists st. split; [|split; [|split]].
    + apply LoadDeckfromCache_falsy. auto.
    + congruence.
    + reflexivity.
    + apply LoadDeckfromCache_falsy. auto.
  - eexists. split; [|split; [|split]].
    + apply (LoadDeckfromCache_malformed st c text); assumption.
    + intros _. apply lookup_delete_eq.
    + discriminate.
    + apply LoadDeckfromCache_falsy. left. apply lookup_delete_eq.
Qed.

Lemma LoadDeckfromCache_fails_soft_witness :
  exists st',
    LoadDeckfromCache (initialState {[deckCacheKey := js "{oops"]})
      = Normal JSON.JNull st' /\
    (js "{oops" <> [] -> localStorage st' !! deckCacheKey = None) /\
    (js "{oops" = [] -> st' = initialState {[deckCacheKey := js "{oops"]}) /\
    LoadDeckfromCache st' = Normal JSON.JNull st'.
Proof.
  apply (LoadDeckfromCache_fails_soft
           (initialState {[deckCacheKey := js "{oops"]}) (js "{oops")).
  - vm_compute. reflexivity.
  - reflexivity.
Defined.

(** ** Session initialisation *)

Lemma LoadHistoryfromLocal_frame (st st1 : State) :
  LoadHistoryfromLocal st = Normal tt st1 ->
  exists records n, st1 = set_nextOid n (set_historyRecords records st).
Proof.
  unfold LoadHistoryfromLocal, bind, gets, modify, ret, throw, stuck.
  destruct (localStorage st !! historyKey) as [[|c text]|].
  - intros [= <-]. exists (historyRecords st), (nextOid st). destruct st; reflexivity.
  - destruct (JSON.parse (c :: text)) as [[| | | |elems|]|]; try discriminate.
    intros [= <-]. eauto.
  - intros [= <-]. exists (historyRecords st), (nextOid st). destruct st; reflexivity.
Qed.


(** The stored history can be read when there is none, and when it is what
    [SaveHistorytoLocal] wrote. *)
Lemma LoadHistoryfromLocal_without_history (st : State) :
  localStorage st !! historyKey = None ->
  LoadHistoryfromLocal st = Normal tt st.
Proof.
  intros Hget. unfold LoadHistoryfromLocal, bind, gets. rewrite Hget. reflexivity.
Qed.

Lemma LoadHistoryfromLocal_reads_saved_history (st : State)
    (records : list HistoryRecord.t) :
  localStorage st !! historyKey = Some (stringify_history records) ->
  LoadHistoryfromLocal st =
  Normal tt
    (set_nextOid (nextOid st + length records)
       (set_historyRecords
          (allocate (nextOid st) (List.map encode_HistoryRecord records)) st)).
Proof.
  intros Hget.
  rewrite (LoadHistoryfromLocal_run st _ (List.map encode_HistoryRecord records) Hget)
    by apply stringify_history_parse.
  rewrite length_map. reflexivity.
Qed.

Lemma SaveHistorytoLocal_run (st : State) (records : list HistoryRecord.t) :
  List.map snd (historyRecords st) = List.map encode_HistoryRecord records ->
  Forall (fun r => safe_integer (HistoryRecord.timestamp r)) records ->
  SaveHistorytoLocal st =
  Normal tt
    (set_localStorage (<[historyKey := stringify_history records]> (localStorage st))
       st).
Proof.
  intros Hrecords Hsafe. unfold SaveHistorytoLocal, bind, gets.
  rewrite Hrecords, (stringify_encoded_history records Hsafe). reflexivity.
Qed.

Lemma decode_deck_truthy (v : JSON.json) (deck : list Flashcard) :
  decode_deck v = Some deck -> JSON.truthy v = true.
Proof. destruct v; try discriminate. reflexivity. Qed.

Lemma random_index_lt (r n : nat) : 0 < n -> random_index r n < n.
Proof.
  destruct n as [|n]; [lia|]. intros _. unfold random_index.
  apply Nat.mod_upper_bound. lia.
Qed.

Lemma set_flashcard_same (st : State) : set_flashcard (flashcard st) st = st.
Proof. destruct st; reflexivity. Qed.

Lemma initFlashcard_run (r : nat) (st : State) :
  exists card,
    initFlashcard r st = Normal tt (set_flashcard card st) /\
    (currentDeck st = [] -> card = flashcard st) /\
    (currentDeck st <> [] ->
     currentDeck st !! random_index r (length (currentDeck st)) = Some card).
Proof.
  unfold initFlashcard, bind, gets, modify, ret.
  destruct (currentDeck st) as [|c deck] eqn:Hdeck.
  - exists (flashcard st). rewrite set_flashcard_same.
    repeat split; congruence.
  - assert (Hlt : random_index r (length (c :: deck)) < length (c :: deck))
      by (apply random_index_lt; cbn; lia).
    apply lookup_lt_is_Some in Hlt as [card Hcard].
    change (0 <? length (c :: deck)) with true. cbv iota. rewrite Hcard.
    exists card. repeat split; congruence.
Qed.

(** The cache-hit branch of lines 155-158, for any stored text that parses
    to a deck. *)
Lemma useFlashcard_cache_hit (BASE_URL : jsstring) (r : nat) (st st1 : State)
    (text : jsstring) (v : JSON.json) (deck : list Flashcard) :
  isInitialized st = false ->
  LoadHistoryfromLocal st = Normal tt st1 ->
  localStorage st !! deckCacheKey = Some text ->
  JSON.parse text = Some v ->
  decode_deck v = Some deck ->
  exists st',
    useFlashcard BASE_URL r st = Normal tt st' /\
    currentDeck st' = deck /\
    loadFinished st' = true /\
    isInitialized st' = true /\
    requests st' = requests st /\
    loadPending st' = loadPending st /\
    localStorage st' = localStorage st /\
    historyRecords st' = historyRecords st1 /\
    (deck = [] -> flashcard st' = flashcard st) /\
    (deck <> [] -> deck !! random_index r (length deck) = Some (flashcard st')).
Proof.
  intros Hinit Hhist Hget Hparse Hdecode.
  destruct (LoadHistoryfromLocal_frame _ _ Hhist) as (records & n & ->).
  unfold useFlashcard. unfold bind at 1. unfold gets at 1. rewrite Hinit. cbv iota.
  unfold bind at 1. rewrite Hhist.
  unfold bind at 1.
  rewrite (LoadDeckfromCache_parsed _ text v) by assumption.
  unfold bind at 1.
  rewrite (decode_deck_truthy _ _ Hdecode), Hdecode.
  unfold bind at 1. unfold modify at 1.
  unfold bind at 1. unfold assign_loadFinished at 1. unfold modify at 1.
  match goal with |- context [initFlashcard r ?s] =>
    destruct (initFlashcard_run r s) as (card & Hrun & Hempty & Hin)
  end.
  rewrite Hrun. unfold modify. cbn in Hempty, Hin.
  eexists. split; [reflexivity|]. cbn. repeat split; auto.
Qed.







(** The only exception that leaves [useFlashcard] is the [SyntaxError] of
    the unguarded [JSON.parse] of line 134; the state is then untouched. *)
Lemma useFlashcard_throw (BASE_URL : jsstring) (r : nat) (st st' : State)
    (e : Error) :
  useFlashcard BASE_URL r st = Throw e st' ->
  e = SyntaxError /\ st' = st /\ LoadHistoryfromLocal st = Throw SyntaxError st.
Proof.
  unfold useFlashcard. unfold bind at 1. unfold gets at 1.
  destruct (isInitialized st); [discriminate|].
  unfold bind at 1.
  destruct (LoadHistoryfromLocal st) as [[] st1|e1 st1|why] eqn:Hhist;
    [|intros [= <- <-]|discriminate].
  - intros Hthrow. exfalso. revert Hthrow.
    unfold bind at 1.
    assert (Hcache : exists v st2, LoadDeckfromCache st1 = Normal v st2).
    { unfold LoadDeckfromCache, bind, gets, modify, ret.
      destruct (localStorage st1 !! deckCacheKey) as [[|c text]|]; eauto.
      destruct (JSON.parse (c :: text)); eauto. }
    destruct Hcache as (v & st2 & ->).
    unfold bind at 1.
    destruct (JSON.truthy v).
    + destruct (decode_deck v) as [deck|]; [|discriminate].
      unfold bind at 1 2, modify at 1, assign_loadFinished, modify at 1.
      match goal with |- context [initFlashcard r ?s] =>
        destruct (initFlashcard_run r s) as (card & -> & _)
      end.
      discriminate.
    + unfold LoadDeckfromLocal_start, watch_loadFinished, request.
      unfold bind at 1 2 3 4, modify at 1 2 3, gets.
      match goal with |- context [if ?b then _ else _] => destruct b end;
        [|discriminate].
      match goal with |- context [initFlashcard r ?s] =>
        destruct (initFlashcard_run r s) as (card & -> & _)
      end.
      discriminate.
  - revert Hhist. unfold LoadHistoryfromLocal, bind, gets, modify, ret, throw, stuck.
    destruct (localStorage st !! historyKey) as [[|c text]|]; try discriminate.
    destruct (JSON.parse (c :: text)) as [[| | | |elems|]|]; try discriminate.
    intros [= <- <-]. auto.
Qed.

(** ** The remote loader *)

Section Network.

Variable BASE_URL : jsstring.
Variable network : jsstring -> option Response.

Lemma try_LoadImageBySrc_run (src itemName : jsstring) (st : State) :
  try_LoadImageBySrc network src itemName st =
  Normal (accepted network src) (after_attempt network src itemName st).
Proof.
  unfold try_LoadImageBySrc, LoadImageBySrc, after_attempt, accepted, fetch,
    request, response_of, try_catch, bind, modify, ret, throw.
  destruct (network src) as [response|]; [|reflexivity].
  destruct (ok response); [|reflexivity]. cbn [negb andb].
  destruct (jsstring_eqb (blob_type response) (js "image/jpeg")
            || jsstring_eqb (blob_type response) (js "image/png"));
    reflexivity.
Qed.

Lemma first_from_bounds (n i : nat) (p : nat -> bool) :
  i <= first_from n i p <= i + n.
Proof.
  revert i. induction n as [|n IH]; intros i; cbn; [lia|].
  destruct (p i); [lia|]. specialize (IH (S i)). lia.
Qed.

Lemma first_from_found (n i : nat) (p : nat -> bool) :
  first_from n i p < i + n <->
  exists j, i <= j < i + n /\ p j = true.
Proof.
  revert i. induction n as [|n IH]; intros i; cbn.
  - split; [lia|]. intros (j & Hj & _). lia.
  - destruct (p i) eqn:Hp.
    + split; [|lia]. intros _. exists i. split; [lia|assumption].
    + rewrite Nat.add_succ_r, <- Nat.add_succ_l, IH. split.
      * intros (j & Hj & Hpj). exists j. split; [lia|assumption].
      * intros (j & Hj & Hpj). exists j. split; [|assumption].
        destruct (Nat.eq_dec j i) as [->|]; [congruence|lia].
Qed.

Lemma first_from_least (n i : nat) (p : nat -> bool) :
  (first_from n i p < i + n -> p (first_from n i p) = true) /\
  (forall j, i <= j < first_from n i p -> p j = false).
Proof.
  revert i. induction n as [|n IH]; intros i; cbn.
  - split; intros; lia.
  - destruct (p i) eqn:Hp.
    + split; [auto|]. intros; lia.
    + destruct (IH (S i)) as [IH1 IH2]. split.
      * intros H. apply IH1. lia.
      * intros j Hj. destruct (Nat.eq_dec j i) as [->|]; [assumption|].
        apply IH2. lia.
Qed.

Lemma first_miss_spec (p : nat -> bool) (k : nat) :
  1 <= k <= 9 ->
  (first_miss p = k <->
   p k = true /\ forall j, 1 <= j < k -> p j = false).
Proof.
  intros Hk. unfold first_miss.
  pose proof (first_from_bounds 9 1 p) as Hb.
  destruct (first_from_least 9 1 p) as [Htrue Hfalse].
  split.
  - intros Heq. rewrite Heq in *. split; [apply Htrue; lia | exact Hfalse].
  - intros [Hp Hleast].
    destruct (Nat.lt_trichotomy (first_from 9 1 p) k) as [Hlt|[Heq|Hgt]].
    + rewrite Hleast in Htrue by lia. discriminate Htrue. lia.
    + exact Heq.
    + rewrite Hfalse in Hp by lia. discriminate Hp.
Qed.

Lemma first_miss_none (p : nat -> bool) :
  first_miss p = 10 <-> forall j, 1 <= j <= 9 -> p j = false.
Proof.
  unfold first_miss.
  pose proof (first_from_bounds 9 1 p) as Hb.
  pose proof (first_from_found 9 1 p) as Hf.
  destruct (first_from_least 9 1 p) as [_ Hfalse].
  split.
  - intros Heq j Hj. apply Hfalse. lia.
  - intros Hnone. destruct (Nat.eq_dec (first_from 9 1 p) 10) as [|Hne]; [assumption|].
    destruct Hf as [Hf _]. destruct Hf as (j & Hj & Hp); [lia|].
    rewrite Hnone in Hp by lia. discriminate Hp.
Qed.

Lemma probe_exit (fuel : nat) (itemName : jsstring) (i : nat)
    (pngFlag jpgFlag : bool) (count : nat) (st : State) :
  10 - i < fuel ->
  pngFlag && jpgFlag = false ->
  exists exit st',
    probe BASE_URL network fuel itemName i pngFlag jpgFlag count st
      = Normal exit st' /\
    exitIndex exit =
      Nat.max
        (if pngFlag then i
         else first_from (10 - i) i (misses BASE_URL network itemName (js ".png")))
        (if jpgFlag then i
         else first_from (10 - i) i (misses BASE_URL network itemName (js ".jpg"))).
Proof.
  revert i pngFlag jpgFlag count st.
  induction fuel as [|fuel IH]; intros i pf jf count st Hfuel Hflags; [lia|].
  cbn [probe]. destruct (Nat.ltb_spec i 10) as [Hi|Hi].
  - unfold bind at 1. rewrite try_LoadImageBySrc_run.
    unfold bind at 1. rewrite try_LoadImageBySrc_run.
    set (mp := misses BASE_URL network itemName (js ".png")).
    set (mj := misses BASE_URL network itemName (js ".jpg")).
    assert (Hp : accepted network (indexedSrc BASE_URL itemName i (js ".png"))
                 = negb (mp i))
      by (unfold mp, misses; rewrite negb_involutive; reflexivity).
    assert (Hj : accepted network (indexedSrc BASE_URL itemName i (js ".jpg"))
                 = negb (mj i))
      by (unfold mj, misses; rewrite negb_involutive; reflexivity).
    rewrite Hp, Hj.
    replace (10 - i) with (S (10 - S i)) by lia. cbn [first_from].
    pose proof (first_from_bounds (10 - S i) (S i) mp) as Bp.
    pose proof (first_from_bounds (10 - S i) (S i) mj) as Bj.
    destruct pf, jf, (mp i) eqn:Emp, (mj i) eqn:Emj; try discriminate Hflags;
      cbn [negb andb];
      try (eexists _, _; split; [reflexivity|]; cbn [exitIndex]; lia);
      match goal with
      | |- context [probe _ _ fuel itemName (S i) ?a ?b ?c ?s] =>
          destruct (IH (S i) a b c s) as (exit & st' & Hrun & Hexit);
            [lia | reflexivity |];
            exists exit, st'; split; [exact Hrun|]; rewrite Hexit;
            fold mp mj; lia
      end.
  - eexists _, _. split; [reflexivity|]. cbn [exitIndex].
    replace (10 - i) with 0 by lia. cbn [first_from].
    destruct pf, jf; lia.
Qed.

Lemma after_attempt_requests (src itemName : jsstring) (st : State) :
  requests (after_attempt network src itemName st) = requests st ++ [src].
Proof. unfold after_attempt. destruct (accepted network src); reflexivity. Qed.

Lemma probe_requests (fuel : nat) (itemName : jsstring) (i : nat)
    (pngFlag jpgFlag : bool) (count : nat) (st st' : State) (exit : ProbeExit) :
  probe BASE_URL network fuel itemName i pngFlag jpgFlag count st
    = Normal exit st' ->
  i <= exitIndex exit /\
  requests st' =
    requests st ++
    flat_map (indexedSrcs BASE_URL itemName)
      (seq i (S (Nat.min (exitIndex exit) 9) - i)).
Proof.
  revert i pngFlag jpgFlag count st.
  induction fuel as [|fuel IH]; intros i pf jf count st; [discriminate|].
  cbn [probe]. destruct (Nat.ltb_spec i 10) as [Hi|Hi].
  - unfold bind at 1. rewrite try_LoadImageBySrc_run.
    unfold bind at 1. rewrite try_LoadImageBySrc_run.
    match goal with |- (if ?b then _ else _) _ = _ -> _ => destruct b end.
    + intros [= <- <-]. cbn [exitIndex]. split; [lia|].
      rewrite !after_attempt_requests, <- app_assoc.
      replace (S (Nat.min i 9) - i) with 1 by lia. reflexivity.
    + intros Hrun. apply IH in Hrun as [Hle ->]. split; [lia|].
      rewrite !after_attempt_requests, <- !app_assoc.
      replace (S (Nat.min (exitIndex exit) 9) - i)
        with (S (S (Nat.min (exitIndex exit) 9) - S i)) by lia.
      reflexivity.
  - intros [= <- <-]. cbn [exitIndex]. split; [lia|].
    replace (S (Nat.min i 9) - i) with 0 by lia.
    cbn. rewrite app_nil_r. reflexivity.
Qed.

(** C1, amended: the indexed probe stops early exactly when, among the
    indices 1..9, some [.png] attempt fails and some [.jpg] attempt fails, at
    the same index or at different ones; it then stops at the later of the
    two first failures.  Otherwise it tries all nine indices.  The indices
    it requests are those up to the one where it stops. *)
Theorem probe_indexed_stops_once_both_formats_missed
    (itemName : jsstring) (count : nat) (st : State) :
  exists exit st',
    probe_indexed BASE_URL network itemName count st = Normal exit st' /\
    exitIndex exit =
      Nat.max (first_miss (misses BASE_URL network itemName (js ".png")))
              (first_miss (misses BASE_URL network itemName (js ".jpg"))) /\
    (exitIndex exit < 10 <->
     (exists j, 1 <= j <= 9 /\
                misses BASE_URL network itemName (js ".png") j = true) /\
     (exists k, 1 <= k <= 9 /\
                misses BASE_URL network itemName (js ".jpg") k = true)) /\
    requests st' =
      requests st ++
      flat_map (indexedSrcs BASE_URL itemName)
        (seq 1 (Nat.min (exitIndex exit) 9)).
Proof.
  destruct (probe_exit 10 itemName 1 false false count st)
    as (exit & st' & Hrun & Hexit); [lia | reflexivity |].
  exists exit, st'. split; [exact Hrun|]. split; [exact Hexit|].
  apply and_comm. split.
  { apply probe_requests in Hrun as [_ ->]. do 3 f_equal. lia. }
  rewrite Hexit. change (10 - 1) with 9.
  set (mp := misses BASE_URL network itemName (js ".png")).
  set (mj := misses BASE_URL network itemName (js ".jpg")).
  pose proof (first_from_found 9 1 mp) as Fp.
  pose proof (first_from_found 9 1 mj) as Fj.
  split.
  - intros Hlt. split.
    + destruct Fp as [Fp _]. destruct Fp as (j & Hj & Hp); [lia|].
      exists j. split; [lia|assumption].
    + destruct Fj as [Fj _]. destruct Fj as (k & Hk & Hq); [lia|].
      exists k. split; [lia|assumption].
  - intros [(j & Hj & Hp) (k & Hk & Hq)].
    assert (first_from 9 1 mp < 1 + 9)
      by (apply Fp; exists j; split; [lia|assumption]).
    assert (first_from 9 1 mj < 1 + 9)
      by (apply Fj; exists k; split; [lia|assumption]).
    lia.
Qed.

Lemma accepted_true (src : jsstring) :
  accepted network src = true <->
  exists response,
    network src = Some response /\ ok response = true /\
    (blob_type response = js "image/jpeg" \/ blob_type response = js "image/png").
Proof.
  unfold accepted, jsstring_eqb. split.
  - destruct (network src) as [response|]; [|discriminate].
    intros H. apply andb_true_iff in H as [Hok H].
    apply orb_true_iff in H as [H|H]; apply bool_decide_eq_true in H; eauto.
  - intros (response & -> & -> & H). cbn [andb]. apply orb_true_iff.
    destruct H as [H|H]; [left|right]; apply bool_decide_eq_true; exact H.
Qed.

Lemma keeps_ret {A} (I : State -> Prop) (a : A) : keeps I (ret a).
Proof. intros st H. exact H. Qed.

Lemma keeps_throw {A} (I : State -> Prop) (e : Error) : keeps I (@throw A e).
Proof. intros st H. exact H. Qed.

Lemma keeps_stuck {A} (I : State -> Prop) (why : StuckReason) :
  keeps I (@stuck A why).
Proof. intros st H. exact Logic.I. Qed.

Lemma keeps_gets {A} (I : State -> Prop) (f : State -> A) : keeps I (gets f).
Proof. intros st H. exact H. Qed.

Lemma keeps_modify (I : State -> Prop) (f : State -> State) :
  (forall st, I st -> I (f st)) -> keeps I (modify f).
Proof. intros Hf st H. apply Hf, H. Qed.

Lemma keeps_bind {A B} (I : State -> Prop) (m : M A) (k : A -> M B) :
  keeps I m -> (forall a, keeps I (k a)) -> keeps I (bind m k).
Proof.
  intros Hm Hk st H. unfold bind. specialize (Hm st H).
  destruct (m st) as [a st'|e st'|why]; [apply Hk, Hm | exact Hm | exact Logic.I].
Qed.

Lemma keeps_try_catch {A} (I : State -> Prop) (body : M A)
    (handler : Error -> M A) :
  keeps I body -> (forall e, keeps I (handler e)) ->
  keeps I (try_catch body handler).
Proof.
  intros Hm Hk st H. unfold try_catch. specialize (Hm st H).
  destruct (body st) as [a st'|e st'|why]; [exact Hm | apply Hk, Hm | exact Logic.I].
Qed.

Lemma keeps_same_deck (base : list Flashcard) (f : State -> State) :
  (forall st, currentDeck (f st) = currentDeck st) ->
  keeps (deck_sound network base) (modify f).
Proof.
  intros Hf. apply keeps_modify. intros st H card. rewrite Hf. apply H.
Qed.

Create HintDb keeps.
#[local] Hint Resolve keeps_ret keeps_throw keeps_stuck keeps_gets
  keeps_try_catch : keeps.
#[local] Hint Extern 2 (keeps _ (bind _ _)) =>
  apply keeps_bind; [|intros ?] : keeps.
#[local] Hint Extern 2 (keeps _ (modify _)) =>
  apply keeps_same_deck; intros ?; reflexivity : keeps.
#[local] Hint Extern 3 (keeps _ (if ?b then _ else _)) => destruct b : keeps.
#[local] Hint Extern 3 (keeps _ (match ?o with Some _ => _ | None => _ end)) =>
  destruct o : keeps.

Lemma keeps_LoadImageBySrc (base : list Flashcard) (src itemName : jsstring) :
  keeps (deck_sound network base) (LoadImageBySrc network src itemName).
Proof.
  intros st H.
  unfold LoadImageBySrc, fetch, request, response_of, bind, modify, ret, throw.
  destruct (network src) as [response|] eqn:Hnet; [|exact H].
  destruct (ok response) eqn:Hok; [|exact H]. cbn [negb].
  destruct (jsstring_eqb (blob_type response) (js "image/jpeg")
            || jsstring_eqb (blob_type response) (js "image/png")) eqn:Htype;
    [|exact H].
  intros card Hin. cbn in Hin. apply elem_of_app in Hin as [Hin|Hin].
  - apply H, Hin.
  - apply list_elem_of_singleton in Hin as ->. right. cbn.
    unfold accepted. rewrite Hnet, Hok, Htype. reflexivity.
Qed.

Lemma keeps_try_LoadImageBySrc (base : list Flashcard) (src itemName : jsstring) :
  keeps (deck_sound network base) (try_LoadImageBySrc network src itemName).
Proof.
  unfold try_LoadImageBySrc. auto using keeps_LoadImageBySrc with keeps.
Qed.

Lemma keeps_probe (base : list Flashcard) (fuel : nat) (itemName : jsstring)
    (i : nat) (pngFlag jpgFlag : bool) (count : nat) :
  keeps (deck_sound network base)
    (probe BASE_URL network fuel itemName i pngFlag jpgFlag count).
Proof.
  revert i pngFlag jpgFlag count.
  induction fuel as [|fuel IH]; intros i pf jf count; cbn [probe];
    [apply keeps_stuck|].
  destruct (i <? 10); [|apply keeps_ret].
  apply keeps_bind; [apply keeps_try_LoadImageBySrc|]. intros png.
  apply keeps_bind; [apply keeps_try_LoadImageBySrc|]. intros jpg.
  match goal with |- keeps _ (if ?b then _ else _) => destruct b end;
    [apply keeps_ret | apply IH].
Qed.

Lemma keeps_initFlashcard (base : list Flashcard) (r : nat) :
  keeps (deck_sound network base) (initFlashcard r).
Proof. unfold initFlashcard. auto 8 with keeps. Qed.

Lemma keeps_load_item (base : list Flashcard) (r : nat) (itemName : jsstring) :
  keeps (deck_sound network base) (load_item BASE_URL network r itemName).
Proof.
  unfold load_item, probe_indexed, assign_loadFinished, flushJobs.
  auto 12 using keeps_try_LoadImageBySrc, keeps_probe, keeps_initFlashcard
    with keeps.
Qed.

Lemma keeps_load_items (base : list Flashcard) (r : nat)
    (itemNames : list jsstring) :
  keeps (deck_sound network base) (load_items BASE_URL network r itemNames).
Proof.
  induction itemNames as [|itemName rest IH]; cbn [load_items];
    auto using keeps_load_item with keeps.
Qed.

Lemma keeps_read_itemNames (base : list Flashcard) :
  keeps (deck_sound network base) (read_itemNames BASE_URL network).
Proof.
  unfold read_itemNames, response_of, Response_json, config_itemNames.
  apply keeps_try_catch; [|auto with keeps].
  apply keeps_bind; [auto with keeps|]. intros response.
  apply keeps_bind; [auto with keeps|]. intros config.
  destruct config as [| | | | |members]; auto with keeps.
  destruct (JSON.get (js "itemNames") members) as [[| | | |elems|]|];
    auto with keeps.
Qed.

Lemma keeps_LoadDeckfromLocal (base : list Flashcard) (draws : list nat)
    (r : nat) :
  keeps (deck_sound network base) (LoadDeckfromLocal BASE_URL network draws r).
Proof.
  unfold LoadDeckfromLocal, LoadDeckfromLocal_start, LoadDeckfromLocal_resume,
    request, saveDeckCache.
  auto 12 using keeps_read_itemNames, keeps_load_items with keeps.
Qed.

Lemma flushJobs_run (r : nat) (st : State) :
  exists st', flushJobs r st = Normal tt st'.
Proof.
  unfold flushJobs, bind, gets, modify, ret.
  destruct (jobQueued st); [|eauto]. cbn [loadFinished set_jobQueued].
  destruct (loadFinished st); [|eauto].
  match goal with |- context [initFlashcard r ?s] =>
    destruct (initFlashcard_run r s) as (card & -> & _)
  end.
  eauto.
Qed.

(** One identifier never makes the loader throw or stop. *)
Lemma load_item_run (r : nat) (itemName : jsstring) (st : State) :
  exists st', load_item BASE_URL network r itemName st = Normal tt st'.
Proof.
  unfold load_item. unfold bind at 1. rewrite try_LoadImageBySrc_run.
  unfold bind at 1. rewrite try_LoadImageBySrc_run.
  unfold bind at 1, probe_indexed.
  match goal with |- context [probe _ _ 10 itemName 1 false false ?c ?s] =>
    destruct (probe_exit 10 itemName 1 false false c s)
      as (exit & st1 & -> & _); [lia | reflexivity |]
  end.
  unfold bind. destruct (0 <? exitCount exit); cbn [assign_loadFinished modify ret];
    apply flushJobs_run.
Qed.

Lemma load_items_run (r : nat) (itemNames : list jsstring) (st : State) :
  exists st', load_items BASE_URL network r itemNames st = Normal tt st'.
Proof.
  revert st. induction itemNames as [|itemName rest IH]; intros st;
    cbn [load_items]; [eexists; reflexivity|].
  unfold bind. destruct (load_item_run r itemName st) as (st1 & ->). apply IH.
Qed.

(** The loader never throws; it ends normally unless the config lists
    something else than strings. *)
Lemma LoadDeckfromLocal_completes (draws : list nat) (r : nat) (st : State) :
  (exists st', LoadDeckfromLocal BASE_URL network draws r st = Normal tt st') \/
  LoadDeckfromLocal BASE_URL network draws r st = Stuck IllTyped.
Proof.
  remember (LoadDeckfromLocal BASE_URL network draws r st) as outcome eqn:Hrun.
  unfold LoadDeckfromLocal, LoadDeckfromLocal_start, LoadDeckfromLocal_resume
    in Hrun.
  unfold request, bind at 1 2 3 4, modify at 1 2 3 in Hrun.
  match type of Hrun with context [read_itemNames _ _ ?s] =>
    assert (Hread : (exists names, read_itemNames BASE_URL network s = Normal names s)
                    \/ read_itemNames BASE_URL network s = Stuck IllTyped)
  end.
  { unfold read_itemNames, try_catch, bind, response_of, Response_json,
      config_itemNames, ret, throw, stuck.
    destruct (network (configUrl BASE_URL)) as [response|]; [|eauto].
    destruct (JSON.parse (body response)) as [config|]; [|eauto].
    destruct config as [| | | | |members]; eauto.
    destruct (JSON.get (js "itemNames") members) as [[| | | |elems|]|]; eauto.
    destruct (mapM JSON.as_string elems); eauto. }
  destruct Hread as [(names & Hread)|Hread]; rewrite Hread in Hrun;
    [|right; exact Hrun].
  left. unfold bind at 1 in Hrun.
  match type of Hrun with context [load_items _ _ r ?l ?s] =>
    destruct (load_items_run r l s) as (st1 & Hitems)
  end.
  rewrite Hitems in Hrun. subst outcome. eexists. reflexivity.
Qed.

(** C8: a fetched image enters the deck only if its blob type is exactly
    [image/jpeg] or [image/png]; with any other type the attempt throws, counts
    as failed and leaves the deck as it was; and whatever the loader adds to
    the deck was accepted in this sense. *)
Theorem only_jpeg_and_png_enter_the_deck :
  (forall src itemName st st',
      LoadImageBySrc network src itemName st = Normal tt st' ->
      currentDeck st' = currentDeck st ++ [mkFlashcard src itemName] /\
      exists response,
        network src = Some response /\
        (blob_type response = js "image/jpeg" \/
         blob_type response = js "image/png")) /\
  (forall src itemName st response,
      network src = Some response ->
      blob_type response <> js "image/jpeg" ->
      blob_type response <> js "image/png" ->
      exists e st',
        LoadImageBySrc network src itemName st = Throw e st' /\
        try_LoadImageBySrc network src itemName st = Normal false st' /\
        currentDeck st' = currentDeck st) /\
  (forall draws r st st' card,
      LoadDeckfromLocal BASE_URL network draws r st = Normal tt st' ->
      card ∈ currentDeck st' ->
      card ∈ currentDeck st \/
      exists response,
        network (imageSrc card) = Some response /\
        (blob_type response = js "image/jpeg" \/
         blob_type response = js "image/png")).
Proof.
  split; [|split].
  - intros src itemName st st'.
    unfold LoadImageBySrc, fetch, request, response_of, bind, modify, ret, throw.
    destruct (network src) as [response|] eqn:Hnet; [|discriminate].
    destruct (ok response); [|discriminate]. cbn [negb].
    destruct (jsstring_eqb (blob_type response) (js "image/jpeg")
              || jsstring_eqb (blob_type response) (js "image/png")) eqn:Htype;
      [|discriminate].
    intros [= <-]. split; [reflexivity|]. exists response. split; [reflexivity|].
    unfold jsstring_eqb in Htype. apply orb_true_iff in Htype as [H|H];
      apply bool_decide_eq_true in H; auto.
  - intros src itemName st response Hnet Hjpeg Hpng.
    unfold try_LoadImageBySrc, try_catch.
    unfold LoadImageBySrc, fetch, request, response_of, bind, modify, ret, throw.
    rewrite Hnet. unfold jsstring_eqb.
    rewrite (bool_decide_eq_false_2 _ Hjpeg), (bool_decide_eq_false_2 _ Hpng).
    destruct (ok response); cbn [negb orb]; eexists _, _; repeat split.
  - intros draws r st st' card Hrun Hin.
    pose proof (keeps_LoadDeckfromLocal (currentDeck st) draws r st) as Hkeeps.
    rewrite Hrun in Hkeeps.
    destruct (Hkeeps (fun c Hc => or_introl Hc) card Hin) as [H|H]; [auto|].
    right. apply accepted_true in H as (response & Hnet & _ & Htype). eauto.
Qed.

Lemma read_itemNames_failure (st : State) :
  config_failure BASE_URL network ->
  read_itemNames BASE_URL network st = Normal [] st.
Proof.
  unfold read_itemNames, try_catch, bind, response_of, Response_json,
    config_itemNames, itemNames_array.
  intros [Hnone|(response & Hsome & Harray)].
  - rewrite Hnone. reflexivity.
  - rewrite Hsome. unfold itemNames_array in Harray.
    cbv beta iota delta [ret].
    destruct (JSON.parse (body response)) as [config|]; [|reflexivity].
    destruct config as [| | | | |members]; try reflexivity.
    destruct (JSON.get (js "itemNames") members) as [[| | | |elems|]|];
      try reflexivity. discriminate Harray.
Qed.

(** C6, amended: when the config fetch rejects, or its body is not an object
    with an [itemNames] array, the loader does not throw: the identifier list
    is empty, nothing but the config is requested and no card is added.  The
    loader never clears the deck: it is left as it was (empty when it was
    empty before the call, as on a first page load), and that deck is what
    is saved to the cache. *)
Theorem LoadDeckfromLocal_survives_config_failure (draws : list nat) (r : nat)
    (st : State) :
  config_failure BASE_URL network ->
  exists st',
    LoadDeckfromLocal BASE_URL network draws r st = Normal tt st' /\
    read_itemNames BASE_URL network st = Normal [] st /\
    requests st' = requests st ++ [configUrl BASE_URL] /\
    currentDeck st' = currentDeck st /\
    localStorage st' !! deckCacheKey = Some (stringify_deck (currentDeck st)) /\
    (currentDeck st = [] ->
     currentDeck st' = [] /\
     localStorage st' !! deckCacheKey = Some (stringify_deck [])).
Proof.
  intros Hfail.
  unfold LoadDeckfromLocal, LoadDeckfromLocal_start, LoadDeckfromLocal_resume.
  unfold request, bind at 1 2 3 4, modify at 1 2 3.
  rewrite read_itemNames_failure by assumption.
  cbn [sort_random load_items]. unfold bind, ret, gets, saveDeckCache, modify.
  eexists. split; [reflexivity|].
  split; [apply read_itemNames_failure; assumption|].
  cbn. split; [reflexivity|]. split; [reflexivity|].
  split; [apply lookup_insert_eq|].
  intros Hdeck. split; [exact Hdeck|]. rewrite Hdeck. apply lookup_insert_eq.
Qed.

End Network.

Lemma LoadDeckfromLocal_survives_config_failure_witness :
  exists st',
    LoadDeckfromLocal (js "/") unreachable_network [] 0 (initialState ∅)
      = Normal tt st' /\
    read_itemNames (js "/") unreachable_network (initialState ∅)
      = Normal [] (initialState ∅) /\
    requests st' = requests (initialState ∅) ++ [configUrl (js "/")] /\
    currentDeck st' = currentDeck (initialState ∅) /\
    localStorage st' !! deckCacheKey
      = Some (stringify_deck (currentDeck (initialState ∅))) /\
    (currentDeck (initialState ∅) = [] ->
     currentDeck st' = [] /\
     localStorage st' !! deckCacheKey = Some (stringify_deck [])).
Proof.
  apply (LoadDeckfromLocal_survives_config_failure (js "/") unreachable_network
           [] 0 (initialState ∅)).
  left. reflexivity.
Defined.

(** C6, as stated, fails when the deck is not empty before the call: after
    a cache hit on a deck of two cards, [LoadDeckfromLocal] with a config
    fetch that rejects ends normally and leaves the two cards in the deck. *)
Lemma LoadDeckfromLocal_keeps_the_cards_it_finds :
  config_failure (js "/") unreachable_network /\
  exists st1 st',
    useFlashcard (js "/") 0 (initialState {[deckCacheKey := cat_fox_text]})
      = Normal tt st1 /\
    LoadDeckfromLocal (js "/") unreachable_network [] 0 st1 = Normal tt st' /\
    currentDeck st' = cat_fox_deck /\
    length (currentDeck st') = 2.
Proof.
  split; [left; reflexivity|].
  eexists _, _. split; [vm_compute; reflexivity|].
  split; [vm_compute; reflexivity|]. split; reflexivity.
Qed.

(** C1, as stated, fails: [cat1.png] and [cat2.jpg] are missing, every other
    image exists.  No index has both extensions failing, yet the probe
    leaves the loop at index 2. *)
Lemma probe_stops_on_misses_at_different_indices :
  Forall (fun i => ~ (misses (js "/") crossed_network (js "cat") (js ".png") i = true /\
                      misses (js "/") crossed_network (js "cat") (js ".jpg") i = true))
         (seq 1 9) /\
  exists exit st',
    probe_indexed (js "/") crossed_network (js "cat") 0 (initialState ∅)
      = Normal exit st' /\
    exitIndex exit = 2 /\
    accepted crossed_network (js "/photo/cat3.png") = true /\
    js "/photo/cat3.png" ∉ requests st'.
Proof.
  split.
  - repeat constructor; vm_compute; intros [? ?]; discriminate.
  - eexists _, _. split; [vm_compute; reflexivity|].
    split; [reflexivity|]. split; [vm_compute; reflexivity|].
    intros Hin. vm_compute in Hin.
    repeat (apply elem_of_cons in Hin as [Hin|Hin]; [discriminate Hin|]).
    inversion Hin.
Qed.

(** The loader on the one-image site: the deck is the single card of
    [cat.png], and the watcher selects it. *)
Example LoadDeckfromLocal_on_the_cat_site :
  exists st1 st',
    useFlashcard (js "/") 0 (initialState ∅) = Normal tt st1 /\
    LoadDeckfromLocal_resume (js "/") cat_network [] 0 st1 = Normal tt st' /\
    currentDeck st' = [mkFlashcard (js "/photo/cat.png") (js "cat")] /\
    flashcard st' = mkFlashcard (js "/photo/cat.png") (js "cat") /\
    loadFinished st' = true /\
    requests st' = [js "/photo/deck-config.json"; js "/photo/cat.png";
                    js "/photo/cat.jpg"; js "/photo/cat1.png";
                    js "/photo/cat1.jpg"] /\
    localStorage st' !! deckCacheKey =
      Some (stringify_deck [mkFlashcard (js "/photo/cat.png") (js "cat")]).
Proof.
  eexists _, _. split; [vm_compute; reflexivity|].
  split; [vm_compute; reflexivity|].
  repeat split.
Qed.

(** * Further properties of the composable *)

(** ** The remote loader, request by request *)

Section Loader.

Variable BASE_URL : jsstring.
Variable network : jsstring -> option Response.

Lemma loaded_app (itemName : jsstring) (a b : list jsstring) :
  loaded network itemName (a ++ b) =
  loaded network itemName a ++ loaded network itemName b.
Proof. unfold loaded. rewrite List.filter_app, List.map_app. reflexivity. Qed.

Lemma attempts_run (itemName : jsstring) (srcs : list jsstring) (st : State) :
  attempts network itemName srcs st =
  set_currentDeck (currentDeck st ++ loaded network itemName srcs)
    (set_requests (requests st ++ srcs) st).
Proof.
  revert st. induction srcs as [|src srcs IH]; intros st.
  - destruct st. cbn. unfold set_currentDeck, set_requests. cbn.
    rewrite !app_nil_r. reflexivity.
  - unfold attempts in *. cbn [fold_left]. rewrite IH.
    unfold after_attempt, loaded. cbn [List.filter].
    destruct (accepted network src); destruct st; cbn;
      unfold set_currentDeck, set_requests; cbn;
      rewrite <- ?app_assoc; reflexivity.
Qed.

Lemma attempts_app (itemName : jsstring) (a b : list jsstring) (st : State) :
  attempts network itemName (a ++ b) st =
  attempts network itemName b (attempts network itemName a st).
Proof. apply fold_left_app. Qed.

Lemma probe_attempts (fuel : nat) (itemName : jsstring) (i : nat)
    (pngFlag jpgFlag : bool) (count : nat) (st st' : State) (exit : ProbeExit) :
  probe BASE_URL network fuel itemName i pngFlag jpgFlag count st
    = Normal exit st' ->
  st' = attempts network itemName
          (flat_map (indexedSrcs BASE_URL itemName)
             (seq i (S (Nat.min (exitIndex exit) 9) - i))) st /\
  exitCount exit =
    count + length (loaded network itemName
                      (flat_map (indexedSrcs BASE_URL itemName)
                         (seq i (S (Nat.min (exitIndex exit) 9) - i)))).
Proof.
  revert i pngFlag jpgFlag count st.
  induction fuel as [|fuel IH]; intros i pf jf count st; [discriminate|].
  cbn [probe]. destruct (Nat.ltb_spec i 10) as [Hi|Hi].
  - unfold bind at 1. rewrite try_LoadImageBySrc_run.
    unfold bind at 1. rewrite try_LoadImageBySrc_run.
    match goal with |- (if ?b then _ else _) _ = _ -> _ => destruct b end.
    + intros [= <- <-]. cbn [exitIndex exitCount].
      replace (S (Nat.min i 9) - i) with 1 by lia.
      cbn [seq flat_map indexedSrcs app]. split; [reflexivity|].
      unfold loaded. cbn [List.filter].
      destruct (accepted network (indexedSrc BASE_URL itemName i (js ".png"))),
               (accepted network (indexedSrc BASE_URL itemName i (js ".jpg")));
        cbn; lia.
    + intros Hrun.
      pose proof (probe_requests _ _ _ _ _ _ _ _ _ _ _ Hrun) as [Hle _].
      apply IH in Hrun as [-> ->].
      replace (S (Nat.min (exitIndex exit) 9) - i)
        with (S (S (Nat.min (exitIndex exit) 9) - S i)) by lia.
      cbn [seq flat_map]. rewrite attempts_app, loaded_app, length_app.
      split; [reflexivity|].
      unfold indexedSrcs, loaded at 2. cbn [List.filter].
      destruct (accepted network (indexedSrc BASE_URL itemName i (js ".png"))),
               (accepted network (indexedSrc BASE_URL itemName i (js ".jpg")));
        cbn [List.map length]; lia.
  - intros [= <- <-]. cbn [exitIndex exitCount].
    replace (S (Nat.min i 9) - i) with 0 by lia. cbn. split; [reflexivity|lia].
Qed.

Lemma lastIndex_bounds (itemName : jsstring) :
  1 <= lastIndex BASE_URL network itemName <= 9.
Proof.
  unfold lastIndex, first_miss.
  pose proof (first_from_bounds 9 1 (misses BASE_URL network itemName (js ".png"))).
  pose proof (first_from_bounds 9 1 (misses BASE_URL network itemName (js ".jpg"))).
  lia.
Qed.

Lemma load_item_steps (r : nat) (itemName : jsstring) (st : State) :
  load_item BASE_URL network r itemName st =
  flushJobs r
    (let st2 := attempts network itemName (candidates BASE_URL network itemName) st in
     if 0 <? length (cards_of BASE_URL network itemName)
     then set_jobQueued (jobQueued st2 || (watching st2 && negb (loadFinished st2)))
            (set_loadFinished true st2)
     else st2).
Proof.
  unfold load_item. unfold bind at 1. rewrite try_LoadImageBySrc_run.
  unfold bind at 1. rewrite try_LoadImageBySrc_run.
  unfold bind at 1, probe_indexed.
  match goal with |- context [probe _ _ 10 itemName 1 false false ?c ?s] =>
    destruct (probe_exit BASE_URL network 10 itemName 1 false false c s)
      as (exit & st1 & Hrun & Hexit); [lia | reflexivity |];
    rewrite Hrun; apply probe_attempts in Hrun as [-> Hcount]
  end.
  change (10 - 1) with 9 in Hexit. fold (first_miss (misses BASE_URL network itemName (js ".png"))) in Hexit.
  fold (first_miss (misses BASE_URL network itemName (js ".jpg"))) in Hexit.
  assert (Hlast : S (Nat.min (exitIndex exit) 9) - 1 = lastIndex BASE_URL network itemName)
    by (unfold lastIndex; rewrite Hexit; lia).
  rewrite Hlast in *.
  assert (Hst : forall st0,
    attempts network itemName
      (flat_map (indexedSrcs BASE_URL itemName) (seq 1 (lastIndex BASE_URL network itemName)))
      (after_attempt network (photoFolderPath BASE_URL ++ itemName ++ js ".jpg") itemName
         (after_attempt network (photoFolderPath BASE_URL ++ itemName ++ js ".png") itemName st0))
    = attempts network itemName (candidates BASE_URL network itemName) st0).
  { intros st0. unfold candidates. rewrite attempts_app. reflexivity. }
  rewrite Hst.
  assert (Hlen : exitCount exit = length (cards_of BASE_URL network itemName)).
  { rewrite Hcount. unfold cards_of, candidates. rewrite loaded_app, length_app.
    f_equal. unfold baseSrcs, loaded. cbn [List.filter].
    destruct (accepted network (photoFolderPath BASE_URL ++ itemName ++ js ".png")),
             (accepted network (photoFolderPath BASE_URL ++ itemName ++ js ".jpg"));
      reflexivity. }
  rewrite Hlen. unfold bind.
  destruct (0 <? length (cards_of BASE_URL network itemName)); cbv zeta.
  - unfold assign_loadFinished, modify.
    assert (He : forall b, eqb b true = b) by (intros []; reflexivity).
    rewrite He. reflexivity.
  - reflexivity.
Qed.

Lemma set_jobQueued_same (st : State) : set_jobQueued (jobQueued st) st = st.
Proof. destruct st; reflexivity. Qed.

Lemma flushJobs_effect (r : nat) (st : State) :
  exists card,
    flushJobs r st = Normal tt (set_flashcard card (set_jobQueued false st)) /\
    (jobQueued st && loadFinished st = false -> card = flashcard st) /\
    (currentDeck st = [] -> card = flashcard st) /\
    (jobQueued st = true -> loadFinished st = true -> currentDeck st <> [] ->
     currentDeck st !! random_index r (length (currentDeck st)) = Some card).
Proof.
  unfold flushJobs, bind, gets, modify, ret.
  destruct (jobQueued st) eqn:Hq.
  - cbn [loadFinished set_jobQueued]. destruct (loadFinished st) eqn:Hf.
    + destruct (initFlashcard_run r (set_jobQueued false st))
        as (card & Hrun & Hempty & Hin).
      exists card. split; [exact Hrun|]. cbn in Hempty, Hin.
      split; [discriminate|]. split; [exact Hempty|]. intros _ _. exact Hin.
    + exists (flashcard st).
      split; [destruct st; reflexivity|].
      split; [reflexivity|]. split; [reflexivity|discriminate].
  - exists (flashcard st).
    split; [destruct st; cbn in Hq; subst; reflexivity|].
    split; [reflexivity|]. split; [reflexivity|discriminate].
Qed.

Lemma load_item_effect (r : nat) (itemName : jsstring) (st : State) :
  exists st',
    load_item BASE_URL network r itemName st = Normal tt st' /\
    requests st' = requests st ++ candidates BASE_URL network itemName /\
    currentDeck st' = currentDeck st ++ cards_of BASE_URL network itemName /\
    loadFinished st' =
      loadFinished st || (0 <? length (cards_of BASE_URL network itemName)) /\
    localStorage st' = localStorage st /\
    watching st' = watching st /\
    loadPending st' = loadPending st /\
    isInitialized st' = isInitialized st /\
    historyRecords st' = historyRecords st /\
    jobQueued st' = false /\
    (jobQueued st = false ->
     if watching st && negb (loadFinished st)
        && (0 <? length (cards_of BASE_URL network itemName))
     then currentDeck st' !! random_index r (length (currentDeck st'))
          = Some (flashcard st')
     else flashcard st' = flashcard st).
Proof.
  rewrite load_item_steps, attempts_run. fold (cards_of BASE_URL network itemName).
  cbv zeta.
  match goal with |- context [flushJobs r ?s] =>
    destruct (flushJobs_effect r s) as (card & -> & Hidle & Hempty & Hfire)
  end.
  eexists. split; [reflexivity|].
  destruct (Nat.ltb_spec 0 (length (cards_of BASE_URL network itemName))) as [Hpos|Hnone].
  - assert (Hne : currentDeck st ++ cards_of BASE_URL network itemName <> []).
    { destruct (cards_of BASE_URL network itemName); [cbn in Hpos; lia|].
      intros H. apply app_eq_nil in H as [_ H]. discriminate H. }
    cbn in Hidle, Hempty, Hfire |- *. repeat split; try reflexivity.
    + rewrite orb_true_r. reflexivity.
    + intros Hq. rewrite Hq in *. cbn [orb] in *.
      destruct (watching st), (loadFinished st); cbn [andb negb] in *;
        try (apply Hidle; reflexivity).
      apply Hfire; try reflexivity. exact Hne.
  - cbn in Hidle, Hempty, Hfire |- *. repeat split; try reflexivity.
    + rewrite orb_false_r. reflexivity.
    + intros Hq. rewrite andb_false_r. apply Hidle. rewrite Hq. reflexivity.
Qed.

Lemma load_items_effect (r : nat) (itemNames : list jsstring) (st : State) :
  exists st',
    load_items BASE_URL network r itemNames st = Normal tt st' /\
    requests st' = requests st ++ flat_map (candidates BASE_URL network) itemNames /\
    currentDeck st' =
      currentDeck st ++ flat_map (cards_of BASE_URL network) itemNames /\
    loadFinished st' =
      loadFinished st
      || (0 <? length (flat_map (cards_of BASE_URL network) itemNames)) /\
    localStorage st' = localStorage st /\
    watching st' = watching st /\
    loadPending st' = loadPending st /\
    isInitialized st' = isInitialized st /\
    historyRecords st' = historyRecords st /\
    (jobQueued st = false ->
     jobQueued st' = false /\
     (watching st && negb (loadFinished st) = false ->
      flashcard st' = flashcard st) /\
     (watching st = true -> loadFinished st = false ->
      match List.find (fun n => 0 <? length (cards_of BASE_URL network n)) itemNames with
      | None => flashcard st' = flashcard st
      | Some n =>
          (currentDeck st ++ cards_of BASE_URL network n)
            !! random_index r (length (currentDeck st ++ cards_of BASE_URL network n))
          = Some (flashcard st')
      end)).
Proof.
  revert st. induction itemNames as [|n rest IH]; intros st.
  - exists st. cbn. rewrite !app_nil_r, orb_false_r. repeat split; auto.
  - cbn [load_items]. unfold bind.
    destruct (load_item_effect r n st)
      as (st1 & -> & Hreq1 & Hdeck1 & Hfin1 & Hsto1 & Hwat1 & Hpen1 & Hini1 & Hhis1
          & Hjob1 & Hcard1).
    destruct (IH st1)
      as (st' & Hrun & Hreq & Hdeck & Hfin & Hsto & Hwat & Hpen & Hini & Hhis & Hrest).
    destruct (Hrest Hjob1) as (Hjob & Hsettled & Hwaiting).
    exists st'. split; [exact Hrun|].
    cbn [flat_map]. rewrite length_app.
    split; [rewrite Hreq, Hreq1, <- app_assoc; reflexivity|].
    split; [rewrite Hdeck, Hdeck1, <- app_assoc; reflexivity|].
    split.
    { rewrite Hfin, Hfin1, <- orb_assoc. f_equal.
      destruct (length (cards_of BASE_URL network n)),
               (length (flat_map (cards_of BASE_URL network) rest)); reflexivity. }
    do 5 (split; [congruence|]).
    intros Hq. specialize (Hcard1 Hq). split; [exact Hjob|]. split.
    + intros Hset. rewrite Hset in Hcard1. cbn [andb] in Hcard1.
      rewrite <- Hcard1. apply Hsettled. rewrite Hwat1, Hfin1.
      destruct (watching st), (loadFinished st); try discriminate Hset; reflexivity.
    + intros Hw Hf. rewrite Hw, Hf in Hcard1. cbn [andb negb] in Hcard1.
      cbn [List.find].
      destruct (0 <? length (cards_of BASE_URL network n)) eqn:Hpos.
      * rewrite <- Hdeck1. rewrite Hsettled; [exact Hcard1|].
        rewrite Hfin1, orb_true_r, andb_false_r. reflexivity.
      * assert (Hnil : cards_of BASE_URL network n = []).
        { destruct (cards_of BASE_URL network n); [reflexivity|discriminate Hpos]. }
        rewrite Hnil, app_nil_r in Hdeck1.
        rewrite Hcard1, Hdeck1 in Hwaiting. apply Hwaiting; [congruence|].
        rewrite Hfin1, Hf. reflexivity.
Qed.

Lemma read_itemNames_listed (st : State) :
  read_itemNames BASE_URL network st =
  match listed BASE_URL network with
  | Some names => Normal names st
  | None => Stuck IllTyped
  end.
Proof.
  unfold read_itemNames, listed, itemNames_array, try_catch, bind, response_of,
    Response_json, config_itemNames.
  destruct (network (configUrl BASE_URL)) as [response|]; [|reflexivity].
  cbv beta iota delta [ret throw stuck].
  destruct (JSON.parse (body response)) as [config|]; [|reflexivity].
  destruct config as [| | | | |members]; try reflexivity.
  destruct (JSON.get (js "itemNames") members) as [[| | | |elems|]|];
    try reflexivity.
  destruct (mapM JSON.as_string elems); reflexivity.
Qed.

Lemma LoadDeckfromLocal_resume_effect (draws : list nat) (r : nat) (st : State)
    (names : list jsstring) :
  listed BASE_URL network = Some names ->
  exists st2 st',
    load_items BASE_URL network r (sort_random draws names [])
      (set_loadPending false st) = Normal tt st2 /\
    LoadDeckfromLocal_resume BASE_URL network draws r st = Normal tt st' /\
    st' = set_localStorage
            (<[deckCacheKey := stringify_deck (currentDeck st2)]> (localStorage st2))
            st2.
Proof.
  intros Hlisted. unfold LoadDeckfromLocal_resume.
  unfold bind at 1, modify at 1. unfold bind at 1.
  rewrite read_itemNames_listed, Hlisted. unfold bind at 1.
  destruct (load_items_effect r (sort_random draws names []) (set_loadPending false st))
    as (st2 & Hrun & _).
  rewrite Hrun. exists st2. eexists. split; [reflexivity|].
  split; reflexivity.
Qed.

Lemma LoadDeckfromLocal_effect (draws : list nat) (r : nat) (st : State)
    (names : list jsstring) :
  listed BASE_URL network = Some names ->
  exists st',
    LoadDeckfromLocal BASE_URL network draws r st = Normal tt st' /\
    requests st' =
      requests st ++
      configUrl BASE_URL ::
      flat_map (candidates BASE_URL network) (sort_random draws names []) /\
    currentDeck st' =
      currentDeck st ++
      flat_map (cards_of BASE_URL network) (sort_random draws names []) /\
    loadFinished st' =
      loadFinished st
      || (0 <? length (flat_map (cards_of BASE_URL network)
                         (sort_random draws names []))) /\
    localStorage st' =
      <[deckCacheKey := stringify_deck (currentDeck st')]> (localStorage st) /\
    loadPending st' = false.
Proof.
  intros Hlisted. unfold LoadDeckfromLocal, LoadDeckfromLocal_start.
  unfold bind at 1 2, request, modify at 1 2.
  match goal with |- context [LoadDeckfromLocal_resume _ _ _ _ ?s] =>
    destruct (LoadDeckfromLocal_resume_effect draws r s names Hlisted)
      as (st2 & st' & Hitems & -> & ->);
    destruct (load_items_effect r (sort_random draws names []) (set_loadPending false s))
      as (st2' & Hitems' & Hreq & Hdeck & Hfin & Hsto & _ & Hpen & _)
  end.
  rewrite Hitems in Hitems'. injection Hitems' as <-.
  eexists. split; [reflexivity|]. cbn in Hreq, Hdeck, Hfin, Hsto, Hpen |- *.
  split; [rewrite Hreq, <- app_assoc; reflexivity|].
  split; [exact Hdeck|]. split; [exact Hfin|]. split; [rewrite Hsto; reflexivity|].
  exact Hpen.
Qed.

Lemma candidates_length (itemName : jsstring) :
  length (candidates BASE_URL network itemName) =
  2 + 2 * lastIndex BASE_URL network itemName.
Proof.
  unfold candidates. rewrite length_app. cbn [baseSrcs length]. f_equal.
  generalize 1 at 1. induction (lastIndex BASE_URL network itemName) as [|k IH];
    intros i; [reflexivity|].
  cbn [seq flat_map]. rewrite length_app, IH. cbn. lia.
Qed.

Lemma cards_of_length (itemName : jsstring) :
  length (cards_of BASE_URL network itemName) <=
  length (candidates BASE_URL network itemName).
Proof.
  unfold cards_of, loaded. rewrite length_map. apply List.filter_length_le.
Qed.

Lemma flat_map_length_bounds {A B} (f : A -> list B) (lo hi : nat) (l : list A) :
  (forall x, lo <= length (f x) <= hi) ->
  lo * length l <= length (flat_map f l) <= hi * length l.
Proof.
  intros Hf. induction l as [|x l IH]; cbn [flat_map length]; [lia|].
  rewrite length_app. specialize (Hf x). lia.
Qed.

(** X1: when lines 59-71 yield the identifiers [names], [LoadDeckfromLocal]
    ends normally and has requested, in this order and nothing else: the
    config, then for each identifier in the shuffled order (a permutation of
    [names]) its base [.png] and [.jpg] and then its indexed [.png] and [.jpg]
    from index 1 up to the index at which the probe stops. *)
Theorem LoadDeckfromLocal_requests_in_order (draws : list nat) (r : nat)
    (st : State) (names : list jsstring) :
  listed BASE_URL network = Some names ->
  exists st',
    LoadDeckfromLocal BASE_URL network draws r st = Normal tt st' /\
    sort_random draws names [] ≡ₚ names /\
    requests st' =
      requests st ++
      configUrl BASE_URL ::
      flat_map (candidates BASE_URL network) (sort_random draws names []).
Proof.
  intros Hlisted.
  destruct (LoadDeckfromLocal_effect draws r st names Hlisted)
    as (st' & Hrun & Hreq & _).
  exists st'. split; [exact Hrun|]. split; [|exact Hreq].
  rewrite sort_random_permutation, app_nil_r. reflexivity.
Qed.

(** X2: the deck after [LoadDeckfromLocal] is the deck before the call,
    untouched, followed by one card for every requested image that was
    accepted, in the order of the requests; the card holds the URL and the
    identifier.  One identifier may so contribute several cards. *)
Theorem LoadDeckfromLocal_appends_the_accepted_candidates (draws : list nat)
    (r : nat) (st : State) (names : list jsstring) :
  listed BASE_URL network = Some names ->
  exists st',
    LoadDeckfromLocal BASE_URL network draws r st = Normal tt st' /\
    currentDeck st' =
      currentDeck st ++
      flat_map (fun itemName =>
                  List.map (fun src => mkFlashcard src itemName)
                    (List.filter (accepted network)
                       (candidates BASE_URL network itemName)))
        (sort_random draws names []).
Proof.
  intros Hlisted.
  destruct (LoadDeckfromLocal_effect draws r st names Hlisted)
    as (st' & Hrun & _ & Hdeck & _).
  exists st'. split; [exact Hrun | exact Hdeck].
Qed.

(** X3: an identifier costs at least 4 and at most 20 image requests (its
    two base images and index 1 are always tried, no index beyond 9 ever is)
    and gives at most 20 cards; so a call over [n] identifiers makes between
    [1 + 4 n] and [1 + 20 n] requests and adds at most [20 n] cards. *)
Theorem LoadDeckfromLocal_request_bounds (draws : list nat) (r : nat)
    (st : State) (names : list jsstring) :
  listed BASE_URL network = Some names ->
  exists st',
    LoadDeckfromLocal BASE_URL network draws r st = Normal tt st' /\
    (forall itemName,
        4 <= length (candidates BASE_URL network itemName) <= 20 /\
        length (cards_of BASE_URL network itemName) <= 20) /\
    length (requests st) + 1 + 4 * length names <= length (requests st') /\
    length (requests st') <= length (requests st) + 1 + 20 * length names /\
    length (currentDeck st') <= length (currentDeck st) + 20 * length names.
Proof.
  intros Hlisted.
  destruct (LoadDeckfromLocal_effect draws r st names Hlisted)
    as (st' & Hrun & Hreq & Hdeck & _).
  exists st'. split; [exact Hrun|].
  split.
  { intros n. pose proof (cards_of_length n) as Hle.
    rewrite candidates_length in *. pose proof (lastIndex_bounds n). lia. }
  assert (Hlen : length (sort_random draws names []) = length names).
  { rewrite sort_random_permutation, app_nil_r. reflexivity. }
  rewrite Hreq, Hdeck, !length_app, length_cons.
  pose proof (flat_map_length_bounds (candidates BASE_URL network) 4 20
                (sort_random draws names [])) as Hc.
  pose proof (flat_map_length_bounds (cards_of BASE_URL network) 0 20
                (sort_random draws names [])) as Hd.
  rewrite Hlen in Hc, Hd.
  destruct Hc as [Hc1 Hc2].
  { intros n. rewrite candidates_length. pose proof (lastIndex_bounds n). lia. }
  destruct Hd as [_ Hd2].
  { intros n. pose proof (cards_of_length n) as Hle. rewrite candidates_length in Hle.
    pose proof (lastIndex_bounds n). lia. }
  lia.
Qed.

(** X4: [LoadDeckfromLocal] never resets [loadFinished]; when it is [false]
    before the call it is [true] afterwards exactly when the call added a
    card to the deck. *)
Theorem loadFinished_tells_that_a_card_was_loaded (draws : list nat) (r : nat)
    (st : State) (names : list jsstring) :
  listed BASE_URL network = Some names ->
  exists st',
    LoadDeckfromLocal BASE_URL network draws r st = Normal tt st' /\
    (loadFinished st = true -> loadFinished st' = true) /\
    (loadFinished st = false ->
     (loadFinished st' = true <-> length (currentDeck st) < length (currentDeck st'))).
Proof.
  intros Hlisted.
  destruct (LoadDeckfromLocal_effect draws r st names Hlisted)
    as (st' & Hrun & _ & Hdeck & Hfin & _).
  exists st'. split; [exact Hrun|]. rewrite Hfin, Hdeck, length_app. split.
  - intros ->. reflexivity.
  - intros ->. cbn [orb]. rewrite Nat.ltb_lt. lia.
Qed.

(** X5: [LoadDeckfromLocal] leaves the whole deck, as it stands after the
    call, under the deck key; with that store a later page load (whose stored
    history can be read) takes the cache branch: it installs that very deck,
    also when it is empty, and requests nothing. *)
Theorem a_loaded_deck_is_the_cache_of_the_next_session (draws : list nat)
    (r : nat) (st : State) (names : list jsstring) :
  listed BASE_URL network = Some names ->
  exists st',
    LoadDeckfromLocal BASE_URL network draws r st = Normal tt st' /\
    localStorage st' !! deckCacheKey = Some (stringify_deck (currentDeck st')) /\
    (forall r' st0 st1,
        isInitialized st0 = false ->
        localStorage st0 = localStorage st' ->
        LoadHistoryfromLocal st0 = Normal tt st1 ->
        exists st'',
          useFlashcard BASE_URL r' st0 = Normal tt st'' /\
          currentDeck st'' = currentDeck st' /\
          loadFinished st'' = true /\
          requests st'' = requests st0 /\
          loadPending st'' = loadPending st0).
Proof.
  intros Hlisted.
  destruct (LoadDeckfromLocal_effect draws r st names Hlisted)
    as (st' & Hrun & _ & _ & _ & Hsto & _).
  assert (Hget : localStorage st' !! deckCacheKey
                 = Some (stringify_deck (currentDeck st')))
    by (rewrite Hsto; apply lookup_insert_eq).
  exists st'. split; [exact Hrun|]. split; [exact Hget|].
  intros r' st0 st1 Hinit Hsame Hhist.
  destruct (useFlashcard_cache_hit BASE_URL r' st0 st1
              (stringify_deck (currentDeck st'))
              (JSON.JArray (List.map encode_Flashcard (currentDeck st')))
              (currentDeck st') Hinit Hhist)
    as (st'' & Hrun' & Hd & Hf & _ & Hr & Hp & _);
    [rewrite Hsame; exact Hget | apply stringify_deck_parse
     | apply decode_encode_deck |].
  exists st''. auto.
Qed.

(** X6: when the config lists one identifier whose base [.png] is accepted
    while its base [.jpg] and both images of index 1 are not, the loader adds
    exactly the card of the base [.png], sets [loadFinished], and makes five
    requests: the config and these four images.  No image of index 2 or
    higher is asked for. *)
Theorem one_image_gives_one_card (draws : list nat) (r : nat) (st : State)
    (itemName : jsstring) :
  listed BASE_URL network = Some [itemName] ->
  accepted network (photoFolderPath BASE_URL ++ itemName ++ js ".png") = true ->
  accepted network (photoFolderPath BASE_URL ++ itemName ++ js ".jpg") = false ->
  accepted network (indexedSrc BASE_URL itemName 1 (js ".png")) = false ->
  accepted network (indexedSrc BASE_URL itemName 1 (js ".jpg")) = false ->
  exists st',
    LoadDeckfromLocal BASE_URL network draws r st = Normal tt st' /\
    currentDeck st' =
      currentDeck st ++
      [mkFlashcard (photoFolderPath BASE_URL ++ itemName ++ js ".png") itemName] /\
    requests st' =
      requests st ++
      [configUrl BASE_URL;
       photoFolderPath BASE_URL ++ itemName ++ js ".png";
       photoFolderPath BASE_URL ++ itemName ++ js ".jpg";
       indexedSrc BASE_URL itemName 1 (js ".png");
       indexedSrc BASE_URL itemName 1 (js ".jpg")] /\
    loadFinished st' = true.
Proof.
  intros Hlisted Hpng Hjpg Hpng1 Hjpg1.
  destruct (LoadDeckfromLocal_effect draws r st [itemName] Hlisted)
    as (st' & Hrun & Hreq & Hdeck & Hfin & _).
  exists st'. split; [exact Hrun|].
  assert (Hlast : lastIndex BASE_URL network itemName = 1).
  { unfold lastIndex.
    assert (Hp : first_miss (misses BASE_URL network itemName (js ".png")) = 1).
    { apply first_miss_spec; [lia|]. unfold misses. rewrite Hpng1.
      split; [reflexivity|]. intros j Hj. lia. }
    assert (Hj : first_miss (misses BASE_URL network itemName (js ".jpg")) = 1).
    { apply first_miss_spec; [lia|]. unfold misses. rewrite Hjpg1.
      split; [reflexivity|]. intros j Hj. lia. }
    rewrite Hp, Hj. reflexivity. }
  assert (Hcand : candidates BASE_URL network itemName =
                  [photoFolderPath BASE_URL ++ itemName ++ js ".png";
                   photoFolderPath BASE_URL ++ itemName ++ js ".jpg";
                   indexedSrc BASE_URL itemName 1 (js ".png");
                   indexedSrc BASE_URL itemName 1 (js ".jpg")]).
  { unfold candidates. rewrite Hlast. reflexivity. }
  assert (Hcards : cards_of BASE_URL network itemName =
                   [mkFlashcard (photoFolderPath BASE_URL ++ itemName ++ js ".png")
                      itemName]).
  { unfold cards_of, loaded. rewrite Hcand. cbn [List.filter].
    rewrite Hpng, Hjpg, Hpng1, Hjpg1. reflexivity. }
  assert (Horder : sort_random draws [itemName] [] = [itemName]).
  { cbn [sort_random length]. rewrite Nat.mod_1_r. reflexivity. }
  rewrite Horder in Hreq, Hdeck, Hfin. cbn [flat_map] in Hreq, Hdeck, Hfin.
  rewrite app_nil_r in Hreq, Hdeck, Hfin.
  rewrite Hcand in Hreq. rewrite Hcards in Hdeck, Hfin.
  split; [exact Hdeck|]. split; [exact Hreq|].
  rewrite Hfin. apply orb_true_r.
Qed.

(** X7: the loader does not clear the deck or skip what is already there: a
    second call appends the same cards once more (in the order of its own
    shuffle) and stores the doubled deck. *)
Theorem LoadDeckfromLocal_again_duplicates_the_cards (draws draws' : list nat)
    (r r' : nat) (st : State) (names : list jsstring) :
  listed BASE_URL network = Some names ->
  exists st1 st2 added added',
    LoadDeckfromLocal BASE_URL network draws r st = Normal tt st1 /\
    LoadDeckfromLocal BASE_URL network draws' r' st1 = Normal tt st2 /\
    currentDeck st1 = currentDeck st ++ added /\
    currentDeck st2 = currentDeck st ++ added ++ added' /\
    added' ≡ₚ added /\
    localStorage st2 !! deckCacheKey = Some (stringify_deck (currentDeck st2)).
Proof.
  intros Hlisted.
  destruct (LoadDeckfromLocal_effect draws r st names Hlisted)
    as (st1 & Hrun1 & _ & Hdeck1 & _).
  destruct (LoadDeckfromLocal_effect draws' r' st1 names Hlisted)
    as (st2 & Hrun2 & _ & Hdeck2 & _ & Hsto2 & _).
  exists st1, st2. eexists _, _.
  split; [exact Hrun1|]. split; [exact Hrun2|]. split; [exact Hdeck1|].
  split; [rewrite Hdeck2, Hdeck1, <- app_assoc; reflexivity|].
  split.
  - apply Permutation_flat_map.
    rewrite !sort_random_permutation. reflexivity.
  - rewrite Hsto2. apply lookup_insert_eq.
Qed.

End Loader.

Lemma LoadDeckfromLocal_requests_in_order_witness :
  exists st',
    LoadDeckfromLocal (js "/") cat_network [] 0 (initialState ∅) = Normal tt st' /\
    sort_random [] [js "cat"] [] ≡ₚ [js "cat"] /\
    requests st' =
      requests (initialState ∅) ++
      configUrl (js "/") ::
      flat_map (candidates (js "/") cat_network) (sort_random [] [js "cat"] []).
Proof.
  apply (LoadDeckfromLocal_requests_in_order (js "/") cat_network [] 0
           (initialState ∅) [js "cat"]).
  vm_compute. reflexivity.
Defined.

Lemma LoadDeckfromLocal_appends_the_accepted_candidates_witness :
  exists st',
    LoadDeckfromLocal (js "/") cat_network [] 0 (initialState ∅) = Normal tt st' /\
    currentDeck st' =
      currentDeck (initialState ∅) ++
      flat_map (fun itemName =>
                  List.map (fun src => mkFlashcard src itemName)
                    (List.filter (accepted cat_network)
                       (candidates (js "/") cat_network itemName)))
        (sort_random [] [js "cat"] []).
Proof.
  apply (LoadDeckfromLocal_appends_the_accepted_candidates (js "/") cat_network
           [] 0 (initialState ∅) [js "cat"]).
  vm_compute. reflexivity.
Defined.

Lemma LoadDeckfromLocal_request_bounds_witness :
  exists st',
    LoadDeckfromLocal (js "/") cat_network [] 0 (initialState ∅) = Normal tt st' /\
    (forall itemName,
        4 <= length (candidates (js "/") cat_network itemName) <= 20 /\
        length (cards_of (js "/") cat_network itemName) <= 20) /\
    length (requests (initialState ∅)) + 1 + 4 * length [js "cat"]
      <= length (requests st') /\
    length (requests st')
      <= length (requests (initialState ∅)) + 1 + 20 * length [js "cat"] /\
    length (currentDeck st')
      <= length (currentDeck (initialState ∅)) + 20 * length [js "cat"].
Proof.
  apply (LoadDeckfromLocal_request_bounds (js "/") cat_network [] 0
           (initialState ∅) [js "cat"]).
  vm_compute. reflexivity.
Defined.

Lemma loadFinished_tells_that_a_card_was_loaded_witness :
  exists st',
    LoadDeckfromLocal (js "/") cat_network [] 0 (initialState ∅) = Normal tt st' /\
    (loadFinished (initialState ∅) = true -> loadFinished st' = true) /\
    (loadFinished (initialState ∅) = false ->
     (loadFinished st' = true <->
      length (currentDeck (initialState ∅)) < length (currentDeck st'))).
Proof.
  apply (loadFinished_tells_that_a_card_was_loaded (js "/") cat_network [] 0
           (initialState ∅) [js "cat"]).
  vm_compute. reflexivity.
Defined.

Lemma a_loaded_deck_is_the_cache_of_the_next_session_witness :
  exists st',
    LoadDeckfromLocal (js "/") cat_network [] 0 (initialState ∅) = Normal tt st' /\
    localStorage st' !! deckCacheKey = Some (stringify_deck (currentDeck st')) /\
    (forall r' st0 st1,
        isInitialized st0 = false ->
        localStorage st0 = localStorage st' ->
        LoadHistoryfromLocal st0 = Normal tt st1 ->
        exists st'',
          useFlashcard (js "/") r' st0 = Normal tt st'' /\
          currentDeck st'' = currentDeck st' /\
          loadFinished st'' = true /\
          requests st'' = requests st0 /\
          loadPending st'' = loadPending st0).
Proof.
  apply (a_loaded_deck_is_the_cache_of_the_next_session (js "/") cat_network
           [] 0 (initialState ∅) [js "cat"]).
  vm_compute. reflexivity.
Defined.

Lemma one_image_gives_one_card_witness :
  exists st',
    LoadDeckfromLocal (js "/") cat_network [] 0 (initialState ∅) = Normal tt st' /\
    currentDeck st' =
      currentDeck (initialState ∅) ++
      [mkFlashcard (photoFolderPath (js "/") ++ js "cat" ++ js ".png") (js "cat")] /\
    requests st' =
      requests (initialState ∅) ++
      [configUrl (js "/");
       photoFolderPath (js "/") ++ js "cat" ++ js ".png";
       photoFolderPath (js "/") ++ js "cat" ++ js ".jpg";
       indexedSrc (js "/") (js "cat") 1 (js ".png");
       indexedSrc (js "/") (js "cat") 1 (js ".jpg")] /\
    loadFinished st' = true.
Proof.
  apply (one_image_gives_one_card (js "/") cat_network [] 0 (initialState ∅)
           (js "cat")); vm_compute; reflexivity.
Defined.

Lemma LoadDeckfromLocal_again_duplicates_the_cards_witness :
  exists st1 st2 added added',
    LoadDeckfromLocal (js "/") cat_network [] 0 (initialState ∅) = Normal tt st1 /\
    LoadDeckfromLocal (js "/") cat_network [3] 1 st1 = Normal tt st2 /\
    currentDeck st1 = currentDeck (initialState ∅) ++ added /\
    currentDeck st2 = currentDeck (initialState ∅) ++ added ++ added' /\
    added' ≡ₚ added /\
    localStorage st2 !! deckCacheKey = Some (stringify_deck (currentDeck st2)).
Proof.
  apply (LoadDeckfromLocal_again_duplicates_the_cards (js "/") cat_network
           [] [3] 0 1 (initialState ∅) [js "cat"]).
  vm_compute. reflexivity.
Defined.

(** ** The store *)

(** X8: whatever the deck (the empty one, strings with quotes, control
    characters or lone surrogates), what [saveDeckCache] stores is read back
    by [LoadDeckfromCache] as a truthy value that is this deck; the read
    changes nothing and the stored history is not touched. *)
Theorem saveDeckCache_round_trip (deck : list Flashcard) (st : State) :
  exists saved v,
    saveDeckCache deck st = Normal tt saved /\
    LoadDeckfromCache saved = Normal v saved /\
    JSON.truthy v = true /\
    decode_deck v = Some deck /\
    localStorage saved !! historyKey = localStorage st !! historyKey.
Proof.
  eexists _, _. split; [reflexivity|]. split.
  - apply LoadDeckfromCache_parsed with (text := stringify_deck deck).
    + apply lookup_insert_eq.
    + apply stringify_deck_parse.
  - split; [reflexivity|]. split; [apply decode_encode_deck|].
    cbn. apply lookup_insert_ne. discriminate.
Qed.

(** X9: [SaveHistorytoLocal] followed, in this or a later session, by
    [LoadHistoryfromLocal] restores the entries, all of them and in order,
    in place of whatever history was in memory; the deck cache, the deck and
    the active card are not touched.  The entries are records as
    [AddHistoryRecord] makes them, with timestamps that are integers a number
    holds exactly, as [Date.now()] gives them. *)
Theorem SaveHistorytoLocal_round_trip (st : State)
    (records : list HistoryRecord.t) :
  List.map snd (historyRecords st) = List.map encode_HistoryRecord records ->
  Forall (fun r => safe_integer (HistoryRecord.timestamp r)) records ->
  exists saved,
    SaveHistorytoLocal st = Normal tt saved /\
    localStorage saved !! deckCacheKey = localStorage st !! deckCacheKey /\
    (forall st0,
        localStorage st0 !! historyKey = localStorage saved !! historyKey ->
        exists st1,
          LoadHistoryfromLocal st0 = Normal tt st1 /\
          List.map snd (historyRecords st1) = List.map snd (historyRecords st) /\
          currentDeck st1 = currentDeck st0 /\
          flashcard st1 = flashcard st0 /\
          localStorage st1 = localStorage st0).
Proof.
  intros Hrecords Hsafe. eexists.
  split; [apply (SaveHistorytoLocal_run st records Hrecords Hsafe)|]. split.
  - cbn. apply lookup_insert_ne. discriminate.
  - intros st0 Hget. cbn in Hget. rewrite lookup_insert_eq in Hget.
    eexists. split.
    + apply LoadHistoryfromLocal_reads_saved_history. exact Hget.
    + cbn -[allocate]. rewrite allocate_snd, Hrecords. auto.
Qed.

Lemma SaveHistorytoLocal_round_trip_witness :
  exists saved,
    SaveHistorytoLocal
      (set_historyRecords
         [(0, encode_HistoryRecord (HistoryRecord.mk placeholder true 1700000000000));
          (1, encode_HistoryRecord (HistoryRecord.mk placeholder false 1700000000999))]
         (initialState ∅))
      = Normal tt saved /\
    localStorage saved !! deckCacheKey =
      localStorage
        (set_historyRecords
           [(0, encode_HistoryRecord (HistoryRecord.mk placeholder true 1700000000000));
            (1, encode_HistoryRecord (HistoryRecord.mk placeholder false 1700000000999))]
           (initialState ∅))
        !! deckCacheKey /\
    (forall st0,
        localStorage st0 !! historyKey = localStorage saved !! historyKey ->
        exists st1,
          LoadHistoryfromLocal st0 = Normal tt st1 /\
          List.map snd (historyRecords st1) =
            List.map snd
              (historyRecords
                 (set_historyRecords
                    [(0, encode_HistoryRecord
                           (HistoryRecord.mk placeholder true 1700000000000));
                     (1, encode_HistoryRecord
                           (HistoryRecord.mk placeholder false 1700000000999))]
                    (initialState ∅))) /\
          currentDeck st1 = currentDeck st0 /\
          flashcard st1 = flashcard st0 /\
          localStorage st1 = localStorage st0).
Proof.
  apply (SaveHistorytoLocal_round_trip
           (set_historyRecords
              [(0, encode_HistoryRecord
                     (HistoryRecord.mk placeholder true 1700000000000));
               (1, encode_HistoryRecord
                     (HistoryRecord.mk placeholder false 1700000000999))]
              (initialState ∅))
           [HistoryRecord.mk placeholder true 1700000000000;
            HistoryRecord.mk placeholder false 1700000000999]).
  - reflexivity.
  - repeat constructor.
Defined.

Lemma last_map {A B} (f : A -> B) (l : list A) (x : A) :
  last l = Some x -> last (List.map f l) = Some (f x).
Proof.
  induction l as [|a l IH]; [discriminate|].
  destruct l as [|b l]; [intros [= ->]; reflexivity|].
  intros H. apply IH in H. exact H.
Qed.

(** X10: [handleAnswer], that is [HandleCorrect] and [HandleIncorrect],
    records in memory only: it writes nothing to the store, requests nothing
    and leaves the deck alone.  A page load after an answer that was not
    followed by [SaveHistorytoLocal] reads the history as it was saved,
    without that answer.  The saved entries are records as
    [AddHistoryRecord] makes them, with timestamps as [Date.now()] gives
    them. *)
Theorem an_answer_after_the_last_save_is_not_stored (isCorrect : bool) (now : Z)
    (r : nat) (st : State) (records : list HistoryRecord.t) :
  List.map snd (historyRecords st) = List.map encode_HistoryRecord records ->
  Forall (fun r => safe_integer (HistoryRecord.timestamp r)) records ->
  exists saved st',
    SaveHistorytoLocal st = Normal tt saved /\
    handleAnswer isCorrect now r saved = Normal tt st' /\
    localStorage st' = localStorage saved /\
    requests st' = requests st /\
    currentDeck st' = currentDeck st /\
    last (List.map snd (historyRecords st'))
      = Some (encode_HistoryRecord (HistoryRecord.mk (flashcard st) isCorrect now)) /\
    (forall st0,
        localStorage st0 = localStorage st' ->
        exists st1,
          LoadHistoryfromLocal st0 = Normal tt st1 /\
          List.map snd (historyRecords st1) = List.map snd (historyRecords st)).
Proof.
  intros Hrecords Hsafe. eexists _, _.
  split; [apply (SaveHistorytoLocal_run st records Hrecords Hsafe)|].
  unfold handleAnswer, bind. rewrite AddHistoryRecord_run, NextCard_run.
  split; [reflexivity|].
  cbn [localStorage requests currentDeck historyRecords flashcard nextOid
       set_showAnswer set_flashcard set_cardIndex set_historyRecords set_nextOid
       set_localStorage].
  split; [reflexivity|]. split; [reflexivity|]. split; [reflexivity|]. split.
  - apply (last_map snd _
             (nextOid st,
              encode_HistoryRecord (HistoryRecord.mk (flashcard st) isCorrect now))),
      last_push_bounded.
  - intros st0 Hsame. eexists. split.
    + apply LoadHistoryfromLocal_reads_saved_history.
      rewrite Hsame. apply lookup_insert_eq.
    + cbn -[allocate]. rewrite allocate_snd, Hrecords. reflexivity.
Qed.

Lemma an_answer_after_the_last_save_is_not_stored_witness :
  exists saved st',
    SaveHistorytoLocal (initialState ∅) = Normal tt saved /\
    handleAnswer true 1700000000000 0 saved = Normal tt st' /\
    localStorage st' = localStorage saved /\
    requests st' = requests (initialState ∅) /\
    currentDeck st' = currentDeck (initialState ∅) /\
    last (List.map snd (historyRecords st'))
      = Some (encode_HistoryRecord
                (HistoryRecord.mk (flashcard (initialState ∅)) true 1700000000000)) /\
    (forall st0,
        localStorage st0 = localStorage st' ->
        exists st1,
          LoadHistoryfromLocal st0 = Normal tt st1 /\
          List.map snd (historyRecords st1) =
            List.map snd (historyRecords (initialState ∅))).
Proof.
  apply (an_answer_after_the_last_save_is_not_stored true 1700000000000 0
           (initialState ∅) []).
  - reflexivity.
  - constructor.
Defined.

(** ** Exceptions *)

(** X11: a stored history that is a non-empty text but not JSON makes
    [LoadHistoryfromLocal], and with it the first [useFlashcard], throw a
    [SyntaxError] and leave everything as it was: the entry stays in the
    store, the module stays uninitialised, no deck is installed, and every
    further call throws again. *)
Theorem useFlashcard_does_not_recover_from_a_malformed_history
    (BASE_URL : jsstring) (st : State) (text : jsstring) :
  isInitialized st = false ->
  localStorage st !! historyKey = Some text ->
  text <> [] ->
  JSON.parse text = None ->
  LoadHistoryfromLocal st = Throw SyntaxError st /\
  forall r, useFlashcard BASE_URL r st = Throw SyntaxError st.
Proof.
  intros Hinit Hget Hne Hparse.
  assert (Hhist : LoadHistoryfromLocal st = Throw SyntaxError st).
  { unfold LoadHistoryfromLocal, bind, gets. rewrite Hget.
    destruct text as [|c text]; [congruence|]. rewrite Hparse. reflexivity. }
  split; [exact Hhist|]. intros r.
  unfold useFlashcard. unfold bind at 1, gets at 1. rewrite Hinit.
  unfold bind at 1. rewrite Hhist. reflexivity.
Qed.

Lemma useFlashcard_does_not_recover_from_a_malformed_history_witness :
  LoadHistoryfromLocal (initialState {[historyKey := js "{oops"]})
    = Throw SyntaxError (initialState {[historyKey := js "{oops"]}) /\
  forall r,
    useFlashcard (js "/") r (initialState {[historyKey := js "{oops"]})
      = Throw SyntaxError (initialState {[historyKey := js "{oops"]}).
Proof.
  apply (useFlashcard_does_not_recover_from_a_malformed_history (js "/")
           (initialState {[historyKey := js "{oops"]}) (js "{oops")).
  - reflexivity.
  - vm_compute. reflexivity.
  - discriminate.
  - vm_compute. reflexivity.
Defined.

Lemma LoadHistoryfromLocal_throw (st st' : State) (e : Error) :
  LoadHistoryfromLocal st = Throw e st' <->
  e = SyntaxError /\ st' = st /\
  exists text,
    localStorage st !! historyKey = Some text /\ text <> [] /\
    JSON.parse text = None.
Proof.
  unfold LoadHistoryfromLocal, bind, gets, modify, ret, throw, stuck. split.
  - destruct (localStorage st !! historyKey) as [[|c text]|]; try discriminate.
    destruct (JSON.parse (c :: text)) as [[| | | |elems|]|] eqn:Hparse;
      try discriminate.
    intros [= <- <-]. split; [reflexivity|]. split; [reflexivity|].
    exists (c :: text). split; [reflexivity|]. split; [discriminate|exact Hparse].
  - intros (-> & -> & text & -> & Hne & Hparse).
    destruct text as [|c text]; [congruence|]. rewrite Hparse. reflexivity.
Qed.

(** X12: [useFlashcard] throws exactly when the module is not yet
    initialised and the stored history is a non-empty text that is not JSON,
    and [LoadHistoryfromLocal] exactly when the stored history is such a
    text: the exception is the [SyntaxError] of line 134 and the state is
    unchanged.  Neither the deck cache, whatever it holds, nor the start of
    the remote load makes [useFlashcard] throw. *)
Theorem useFlashcard_throws_exactly_on_a_malformed_history (BASE_URL : jsstring) :
  (forall r st e st',
      useFlashcard BASE_URL r st = Throw e st' <->
      isInitialized st = false /\ e = SyntaxError /\ st' = st /\
      exists text,
        localStorage st !! historyKey = Some text /\ text <> [] /\
        JSON.parse text = None) /\
  (forall st e st',
      LoadHistoryfromLocal st = Throw e st' <->
      e = SyntaxError /\ st' = st /\
      exists text,
        localStorage st !! historyKey = Some text /\ text <> [] /\
        JSON.parse text = None).
Proof.
  split; [|intros st e st'; apply LoadHistoryfromLocal_throw].
  intros r st e st'. split.
  - intros Hthrow.
    assert (Hinit : isInitialized st = false).
    { revert Hthrow. unfold useFlashcard, bind, gets.
      destruct (isInitialized st); [discriminate|reflexivity]. }
    apply useFlashcard_throw in Hthrow as (-> & -> & Hhist).
    apply LoadHistoryfromLocal_throw in Hhist as (_ & _ & Htext). auto.
  - intros (Hinit & -> & -> & Htext).
    assert (Hhist : LoadHistoryfromLocal st = Throw SyntaxError st)
      by (apply LoadHistoryfromLocal_throw; auto).
    unfold useFlashcard. unfold bind at 1, gets at 1. rewrite Hinit.
    unfold bind at 1. rewrite Hhist. reflexivity.
Qed.

(** ** The session *)

(** X13: once [useFlashcard] has returned, the module is initialised and
    every further call returns at once, leaving the whole state as it
    is. *)
Theorem useFlashcard_initialises_once (BASE_URL : jsstring) (r : nat)
    (st st' : State) :
  useFlashcard BASE_URL r st = Normal tt st' ->
  isInitialized st' = true /\
  forall r', useFlashcard BASE_URL r' st' = Normal tt st'.
Proof.
  intros Hrun.
  assert (Hinit : isInitialized st' = true).
  { revert Hrun. unfold useFlashcard. unfold bind at 1, gets at 1.
    destruct (isInitialized st) eqn:Hi; [intros [= <-]; exact Hi|].
    unfold bind at 1. destruct (LoadHistoryfromLocal st) as [[] st1| |]; try discriminate.
    unfold bind at 1. destruct (LoadDeckfromCache st1) as [v st2| |]; try discriminate.
    unfold bind at 1.
    match goal with |- match ?m st2 with _ => _ end = _ -> _ =>
      destruct (m st2) as [[] st3| |]; try discriminate
    end.
    intros [= <-]. reflexivity. }
  split; [exact Hinit|]. intros r'.
  unfold useFlashcard, bind, gets. rewrite Hinit. reflexivity.
Qed.

Lemma useFlashcard_initialises_once_witness :
  exists st',
    useFlashcard (js "/") 0 (initialState {[deckCacheKey := cat_fox_text]})
      = Normal tt st' /\
    isInitialized st' = true /\
    forall r', useFlashcard (js "/") r' st' = Normal tt st'.
Proof.
  eexists. split; [vm_compute; reflexivity|].
  apply (useFlashcard_initialises_once (js "/") 0
           (initialState {[deckCacheKey := cat_fox_text]})).
  vm_compute. reflexivity.
Defined.

Lemma LoadDeckfromCache_miss (st : State) :
  cache_miss (localStorage st) = true ->
  exists v storage,
    LoadDeckfromCache st = Normal v (set_localStorage storage st) /\
    JSON.truthy v = false.
Proof.
  unfold cache_miss, LoadDeckfromCache, bind, gets, modify, ret.
  destruct (localStorage st !! deckCacheKey) as [[|c text]|].
  - intros _. exists JSON.JNull, (localStorage st). destruct st; auto.
  - destruct (JSON.parse (c :: text)) as [v|].
    + intros Hv. apply negb_true_iff in Hv. exists v, (localStorage st).
      destruct st; auto.
    + intros _. eexists JSON.JNull, _. split; reflexivity.
  - intros _. exists JSON.JNull, (localStorage st). destruct st; auto.
Qed.

Lemma useFlashcard_cache_miss (BASE_URL : jsstring) (r : nat) (st st1 : State) :
  isInitialized st = false ->
  loadFinished st = false ->
  cache_miss (localStorage st) = true ->
  LoadHistoryfromLocal st = Normal tt st1 ->
  exists st',
    useFlashcard BASE_URL r st = Normal tt st' /\
    requests st' = requests st ++ [configUrl BASE_URL] /\
    loadPending st' = true /\
    watching st' = true /\
    isInitialized st' = true /\
    loadFinished st' = false /\
    currentDeck st' = currentDeck st /\
    flashcard st' = flashcard st /\
    jobQueued st' = jobQueued st /\
    historyRecords st' = historyRecords st1.
Proof.
  intros Hinit Hfin Hmiss Hhist.
  destruct (LoadHistoryfromLocal_frame _ _ Hhist) as (records & n & ->).
  destruct (LoadDeckfromCache_miss (set_nextOid n (set_historyRecords records st)) Hmiss)
    as (v & storage & Hcache & Hfalsy).
  unfold useFlashcard. unfold bind at 1. unfold gets at 1. rewrite Hinit. cbv iota.
  unfold bind at 1. rewrite Hhist.
  unfold bind at 1. rewrite Hcache.
  unfold bind at 1. rewrite Hfalsy.
  unfold LoadDeckfromLocal_start, watch_loadFinished, request.
  unfold bind at 1 2 3 4, modify at 1 2 3, gets.
  cbn [loadFinished set_watching set_loadPending set_requests set_localStorage
       set_nextOid set_historyRecords].
  rewrite Hfin. unfold ret, modify.
  eexists. split; [reflexivity|]. cbn. repeat split; try reflexivity. exact Hfin.
Qed.

(** X14: on a fresh module whose deck cache gives no deck (absent, empty,
    not JSON, or a falsy value such as [null]) and whose stored history can
    be read, [useFlashcard] requests the config and nothing else, leaves the
    remote load pending with the watcher registered, and selects no card
    yet. *)
Theorem useFlashcard_starts_the_remote_load (BASE_URL : jsstring) (r : nat)
    (st : State) :
  isInitialized st = false ->
  loadFinished st = false ->
  cache_miss (localStorage st) = true ->
  (exists st1, LoadHistoryfromLocal st = Normal tt st1) ->
  exists st',
    useFlashcard BASE_URL r st = Normal tt st' /\
    requests st' = requests st ++ [configUrl BASE_URL] /\
    loadPending st' = true /\
    watching st' = true /\
    isInitialized st' = true /\
    loadFinished st' = false /\
    currentDeck st' = currentDeck st /\
    flashcard st' = flashcard st.
Proof.
  intros Hinit Hfin Hmiss [st1 Hhist].
  destruct (useFlashcard_cache_miss BASE_URL r st st1 Hinit Hfin Hmiss Hhist)
    as (st' & Hrun & Hreq & Hpen & Hwat & Hini & Hfin' & Hdeck & Hcard & _).
  exists st'. repeat split; assumption.
Qed.

Lemma useFlashcard_starts_the_remote_load_witness :
  exists st',
    useFlashcard (js "/") 0 (initialState {[deckCacheKey := js "null"]})
      = Normal tt st' /\
    requests st' =
      requests (initialState {[deckCacheKey := js "null"]}) ++ [configUrl (js "/")] /\
    loadPending st' = true /\
    watching st' = true /\
    isInitialized st' = true /\
    loadFinished st' = false /\
    currentDeck st' = currentDeck (initialState {[deckCacheKey := js "null"]}) /\
    flashcard st' = flashcard (initialState {[deckCacheKey := js "null"]}).
Proof.
  apply (useFlashcard_starts_the_remote_load (js "/") 0
           (initialState {[deckCacheKey := js "null"]})).
  - reflexivity.
  - reflexivity.
  - vm_compute. reflexivity.
  - eexists. vm_compute. reflexivity.
Defined.

(** X15: on a non-empty deck [NextCard] makes the card at the drawn index,
    which is within the deck, the active card and hides the answer; the deck
    and the history are unchanged.  Every card of the deck, the current one
    included, can be drawn. *)
Theorem NextCard_selects_a_card_of_the_deck (r : nat) (st : State) :
  currentDeck st <> [] ->
  exists st',
    NextCard r st = Normal tt st' /\
    cardIndex st' < length (currentDeck st) /\
    currentDeck st !! cardIndex st' = Some (flashcard st') /\
    showAnswer st' = false /\
    currentDeck st' = currentDeck st /\
    historyRecords st' = historyRecords st /\
    (forall card, card ∈ currentDeck st ->
       exists r0 st0, NextCard r0 st = Normal tt st0 /\ flashcard st0 = card).
Proof.
  intros Hdeck.
  assert (Hlt : random_index r (length (currentDeck st)) < length (currentDeck st)).
  { apply random_index_lt. destruct (currentDeck st); [congruence|cbn; lia]. }
  assert (Hreach : forall card, card ∈ currentDeck st ->
            exists r0 st0, NextCard r0 st = Normal tt st0 /\ flashcard st0 = card).
  { intros card' Hin. apply list_elem_of_lookup_1 in Hin as [i Hi].
    destruct (random_index_reaches (length (currentDeck st)) i) as [r0 Hr0].
    { eapply lookup_lt_Some, Hi. }
    exists r0. eexists. split; [apply NextCard_run|]. cbn. rewrite Hr0, Hi.
    reflexivity. }
  eexists. split; [apply NextCard_run|].
  apply lookup_lt_is_Some in Hlt as Hsome. destruct Hsome as [card Hcard].
  cbn [cardIndex flashcard showAnswer currentDeck historyRecords
       set_showAnswer set_flashcard set_cardIndex].
  rewrite Hcard. cbn [default]. repeat split; auto.
Qed.

Lemma NextCard_selects_a_card_of_the_deck_witness :
  exists st',
    NextCard 3 (set_currentDeck cat_fox_deck (initialState ∅)) = Normal tt st' /\
    cardIndex st' < length (currentDeck (set_currentDeck cat_fox_deck (initialState ∅))) /\
    currentDeck (set_currentDeck cat_fox_deck (initialState ∅)) !! cardIndex st'
      = Some (flashcard st') /\
    showAnswer st' = false /\
    currentDeck st' = currentDeck (set_currentDeck cat_fox_deck (initialState ∅)) /\
    historyRecords st' =
      historyRecords (set_currentDeck cat_fox_deck (initialState ∅)) /\
    (forall card,
        card ∈ currentDeck (set_currentDeck cat_fox_deck (initialState ∅)) ->
        exists r0 st0,
          NextCard r0 (set_currentDeck cat_fox_deck (initialState ∅)) = Normal tt st0 /\
          flashcard st0 = card).
Proof.
  apply (NextCard_selects_a_card_of_the_deck 3
           (set_currentDeck cat_fox_deck (initialState ∅))).
  discriminate.
Defined.

Section ColdStart.

Variable BASE_URL : jsstring.
Variable network : jsstring -> option Response.




End ColdStart.


(** ** The active card *)

Section ActiveCard.

Variable BASE_URL : jsstring.
Variable network : jsstring -> option Response.

Create HintDb sound.
#[local] Hint Resolve keeps_ret keeps_throw keeps_stuck keeps_gets
  keeps_try_catch : sound.
#[local] Hint Extern 2 (keeps _ (bind _ _)) =>
  apply keeps_bind; [|intros ?] : sound.
#[local] Hint Extern 2 (keeps active_card_sound (modify _)) =>
  apply keeps_modify; intros ? H; exact H : sound.
#[local] Hint Extern 3 (keeps _ (if ?b then _ else _)) => destruct b : sound.
#[local] Hint Extern 3 (keeps _ (match ?o with Some _ => _ | None => _ end)) =>
  destruct o : sound.

Lemma sound_LoadImageBySrc (src itemName : jsstring) :
  keeps active_card_sound (LoadImageBySrc network src itemName).
Proof.
  unfold LoadImageBySrc, fetch, request, response_of.
  apply keeps_bind; [auto with sound|]. intros response.
  destruct (negb (ok response)); [auto with sound|].
  match goal with |- keeps _ (if ?b then _ else _) => destruct b end;
    [|auto with sound].
  apply keeps_modify. intros st [H|H]; [left; exact H|].
  right. cbn. apply elem_of_app. left. exact H.
Qed.

Lemma sound_initFlashcard (r : nat) :
  keeps active_card_sound (initFlashcard r).
Proof.
  intros st H. destruct (initFlashcard_run r st) as (card & -> & Hempty & Hin).
  destruct (currentDeck st) as [|c deck] eqn:Hdeck.
  - rewrite Hempty by reflexivity. rewrite set_flashcard_same. exact H.
  - right. cbn. rewrite Hdeck. eapply list_elem_of_lookup_2. apply Hin. discriminate.
Qed.

Lemma sound_probe (fuel : nat) (itemName : jsstring) (i : nat)
    (pngFlag jpgFlag : bool) (count : nat) :
  keeps active_card_sound
    (probe BASE_URL network fuel itemName i pngFlag jpgFlag count).
Proof.
  revert i pngFlag jpgFlag count.
  induction fuel as [|fuel IH]; intros i pf jf count; cbn [probe];
    [apply keeps_stuck|].
  destruct (i <? 10); [|apply keeps_ret].
  unfold try_LoadImageBySrc.
  apply keeps_bind; [auto using sound_LoadImageBySrc with sound|]. intros png.
  apply keeps_bind; [auto using sound_LoadImageBySrc with sound|]. intros jpg.
  match goal with |- keeps _ (if ?b then _ else _) => destruct b end;
    [apply keeps_ret | apply IH].
Qed.

Lemma sound_load_items (r : nat) (itemNames : list jsstring) :
  keeps active_card_sound (load_items BASE_URL network r itemNames).
Proof.
  induction itemNames as [|itemName rest IH]; cbn [load_items];
    [apply keeps_ret|].
  apply keeps_bind; [|intros _; exact IH].
  unfold load_item, probe_indexed, assign_loadFinished, flushJobs,
    try_LoadImageBySrc.
  auto 12 using sound_LoadImageBySrc, sound_probe, sound_initFlashcard with sound.
Qed.

Lemma sound_LoadDeckfromLocal_resume (draws : list nat) (r : nat) :
  keeps active_card_sound (LoadDeckfromLocal_resume BASE_URL network draws r).
Proof.
  unfold LoadDeckfromLocal_resume, saveDeckCache.
  apply keeps_bind; [auto with sound|]. intros _.
  apply keeps_bind.
  { unfold read_itemNames, response_of, Response_json, config_itemNames.
    apply keeps_try_catch; [|auto with sound].
    apply keeps_bind; [auto with sound|]. intros response.
    apply keeps_bind; [auto with sound|]. intros config.
    destruct config as [| | | | |members]; auto with sound.
    destruct (JSON.get (js "itemNames") members) as [[| | | |elems|]|];
      auto with sound. }
  intros names. auto using sound_load_items with sound.
Qed.

Lemma sound_LoadHistoryfromLocal : keeps active_card_sound LoadHistoryfromLocal.
Proof.
  unfold LoadHistoryfromLocal.
  apply keeps_bind; [auto with sound|]. intros [[|c text]|]; auto with sound.
  destruct (JSON.parse (c :: text)) as [[| | | |elems|]|]; auto with sound.
Qed.

Lemma sound_useFlashcard (r : nat) (st : State) :
  active_card_sound st ->
  (isInitialized st = false -> flashcard st = placeholder) ->
  match useFlashcard BASE_URL r st with
  | Normal _ st' | Throw _ st' => active_card_sound st'
  | Stuck _ => True
  end.
Proof.
  intros Hsound Hfresh. unfold useFlashcard. unfold bind at 1, gets at 1.
  destruct (isInitialized st); [exact Hsound|]. specialize (Hfresh eq_refl).
  set (fresh := fun st0 : State => flashcard st0 = placeholder).
  assert (Hhist : keeps fresh LoadHistoryfromLocal).
  { unfold LoadHistoryfromLocal.
    apply keeps_bind; [apply keeps_gets|]. intros [[|c text]|];
      try apply keeps_ret.
    destruct (JSON.parse (c :: text)) as [[| | | |elems|]|];
      try apply keeps_stuck; [|apply keeps_throw].
    apply keeps_modify. intros st0 H. exact H. }
  assert (Hcache : keeps fresh LoadDeckfromCache).
  { unfold LoadDeckfromCache.
    apply keeps_bind; [apply keeps_gets|]. intros [[|c text]|];
      try apply keeps_ret.
    destruct (JSON.parse (c :: text)) as [v|]; [apply keeps_ret|].
    apply keeps_bind; [|intros _; apply keeps_ret].
    apply keeps_modify. intros st0 H. exact H. }
  unfold bind at 1. specialize (Hhist st Hfresh).
  destruct (LoadHistoryfromLocal st) as [[] st1|e st1|why];
    [|left; exact Hhist|exact I].
  unfold bind at 1. specialize (Hcache st1 Hhist).
  destruct (LoadDeckfromCache st1) as [v st2|e st2|why];
    [|left; exact Hcache|exact I].
  unfold bind at 1.
  assert (Hsound2 : active_card_sound st2) by (left; exact Hcache).
  assert (Hlast : forall (m : M unit) (s : State),
            match m s with
            | Normal _ s' | Throw _ s' => active_card_sound s'
            | Stuck _ => True
            end ->
            match
              match m s with
              | Normal a s' => modify (set_isInitialized true) s'
              | Throw e s' => Throw e s'
              | Stuck why => Stuck why
              end
            with
            | Normal _ s' | Throw _ s' => active_card_sound s'
            | Stuck _ => True
            end).
  { intros m s H. destruct (m s) as [a s'|e s'|why]; exact H. }
  apply Hlast. destruct (JSON.truthy v).
  - destruct (decode_deck v) as [deck|]; [|exact I].
    unfold bind, modify at 1, assign_loadFinished, modify at 1.
    apply sound_initFlashcard. left. exact Hcache.
  - assert (Hstart : keeps active_card_sound
                       (bind (LoadDeckfromLocal_start BASE_URL)
                          (fun _ => watch_loadFinished r))).
    { unfold LoadDeckfromLocal_start, watch_loadFinished, request.
      auto 10 using sound_initFlashcard with sound. }
    apply Hstart, Hsound2.
Qed.

Lemma sound_handleAnswer (isCorrect : bool) (now : Z) (r : nat) :
  keeps active_card_sound (handleAnswer isCorrect now r).
Proof.
  intros st _. unfold handleAnswer, bind.
  rewrite AddHistoryRecord_run, NextCard_run.
  unfold active_card_sound.
  cbn [flashcard currentDeck set_showAnswer set_flashcard set_cardIndex
       set_historyRecords set_nextOid].
  destruct (currentDeck st !! random_index r (length (currentDeck st)))
    as [card|] eqn:Hcard; cbn [default].
  - right. eapply list_elem_of_lookup_2, Hcard.
  - left. reflexivity.
Qed.

(** X17: the active card is always the placeholder or a card of the
    current deck: this holds when the page has loaded and is kept by the
    first and by any later [useFlashcard], by the remote loader (as a whole
    and from its first await on), by [HandleCorrect], [HandleIncorrect],
    [LoadHistoryfromLocal] and [SaveHistorytoLocal], also when they throw. *)
Theorem the_active_card_is_the_placeholder_or_of_the_deck :
  (forall storage, active_card_sound (initialState storage)) /\
  (forall r st,
      active_card_sound st ->
      (isInitialized st = false -> flashcard st = placeholder) ->
      match useFlashcard BASE_URL r st with
      | Normal _ st' | Throw _ st' => active_card_sound st'
      | Stuck _ => True
      end) /\
  (forall draws r,
      keeps active_card_sound (LoadDeckfromLocal BASE_URL network draws r)) /\
  (forall draws r,
      keeps active_card_sound (LoadDeckfromLocal_resume BASE_URL network draws r)) /\
  (forall now r, keeps active_card_sound (HandleCorrect now r)) /\
  (forall now r, keeps active_card_sound (HandleIncorrect now r)) /\
  keeps active_card_sound LoadHistoryfromLocal /\
  keeps active_card_sound SaveHistorytoLocal.
Proof.
  split; [intros storage; left; reflexivity|].
  split; [exact sound_useFlashcard|].
  split.
  { intros draws r. unfold LoadDeckfromLocal, LoadDeckfromLocal_start, request.
    auto using sound_LoadDeckfromLocal_resume with sound. }
  split; [exact sound_LoadDeckfromLocal_resume|].
  split; [intros now r; apply sound_handleAnswer|].
  split; [intros now r; apply sound_handleAnswer|].
  split; [exact sound_LoadHistoryfromLocal|].
  unfold SaveHistorytoLocal. auto with sound.
Qed.

End ActiveCard.
